(** * Events API: registration and capacity accounting

    A shallow embedding of [src/services/dynamodb.ts] (the DynamoDB service
    layer) and [src/handlers/events.ts] (the Lambda handlers), followed by
    the properties of the registration engine and of the event catalog.

    Conventions of the embedding.
    - JavaScript numbers are integers ([Z]); fractional and non-finite
      numbers are outside the embedding.
    - JavaScript strings are [string]s whose characters are code units
      below 256.
    - A JSON request field is a [JsonValue]; arrays and objects as field
      values are outside the embedding.
    - The table is a finite map from the composite key [(PK, SK)] to the
      remaining attributes of the item.  An item is either an event record
      or a registration record.
    - [await client.send(command)] is a node [Send] of a program tree; the
      continuation receives either the rejection or the command's output.
      The same tree is run alone against a table ([run]) or interleaved
      with other requests ([exec]). *)

From Stdlib Require Import ZArith String Ascii List DecimalString Permutation.
From stdpp Require Import gmap strings list fin_maps sorting.

Open Scope string_scope.
Open Scope Z_scope.

(** ** Strings *)

Module Js.

(** [\s] of a JavaScript regular expression, and the characters removed by
    [String.prototype.trim], for code units below 256. *)
Definition isWhiteSpace (c : ascii) : bool :=
  match nat_of_ascii c with
  | 9%nat | 10%nat | 11%nat | 12%nat | 13%nat | 32%nat | 160%nat => true
  | _ => false
  end.

Fixpoint trimStart (s : string) : string :=
  match s with
  | EmptyString => EmptyString
  | String c s' => if isWhiteSpace c then trimStart s' else s
  end.

Fixpoint trimEnd (s : string) : string :=
  match s with
  | EmptyString => EmptyString
  | String c s' =>
      match trimEnd s' with
      | EmptyString => if isWhiteSpace c then EmptyString else String c EmptyString
      | rest => String c rest
      end
  end.

Definition trim (s : string) : string := trimEnd (trimStart s).

(** [String.prototype.toLowerCase] on code units below 256. *)
Definition lowerChar (c : ascii) : ascii :=
  let n := nat_of_ascii c in
  if ((65 <=? n) && (n <=? 90))%nat then ascii_of_nat (n + 32)
  else if ((192 <=? n) && (n <=? 222) && negb (n =? 215))%nat
       then ascii_of_nat (n + 32)
  else c.

Fixpoint toLowerCase (s : string) : string :=
  match s with
  | EmptyString => EmptyString
  | String c s' => String (lowerChar c) (toLowerCase s')
  end.

(** [haystack.includes(needle)] *)
Fixpoint includes (haystack needle : string) : bool :=
  String.prefix needle haystack ||
  match haystack with
  | EmptyString => false
  | String _ rest => includes rest needle
  end.

(** [s.replace(pattern, by)] for a string pattern: the first occurrence only. *)
Fixpoint replace (s pattern by_ : string) : string :=
  if String.prefix pattern s
  then by_ ++ String.substring (String.length pattern)
                               (String.length s - String.length pattern) s
  else match s with
       | EmptyString => EmptyString
       | String c rest => String c (replace rest pattern by_)
       end.

End Js.

(** ** Regular expressions

    A matcher by derivatives, enough for the anchored pattern of
    [validateEmail]. *)

Module Regex.

Inductive t : Type :=
| Fail                              (* matches nothing *)
| Eps                               (* matches the empty string *)
| Class (p : ascii -> bool)         (* one character of a class *)
| Cat (r1 r2 : t)
| Alt (r1 r2 : t)
| Star (r : t).

Definition Plus (r : t) : t := Cat r (Star r).

Fixpoint nullable (r : t) : bool :=
  match r with
  | Fail => false
  | Eps => true
  | Class _ => false
  | Cat r1 r2 => nullable r1 && nullable r2
  | Alt r1 r2 => nullable r1 || nullable r2
  | Star _ => true
  end.

Fixpoint deriv (c : ascii) (r : t) : t :=
  match r with
  | Fail => Fail
  | Eps => Fail
  | Class p => if p c then Eps else Fail
  | Cat r1 r2 =>
      if nullable r1 then Alt (Cat (deriv c r1) r2) (deriv c r2)
      else Cat (deriv c r1) r2
  | Alt r1 r2 => Alt (deriv c r1) (deriv c r2)
  | Star r' => Cat (deriv c r') (Star r')
  end.

(** [/^r$/.test(s)] *)
Fixpoint test (r : t) (s : string) : bool :=
  match s with
  | EmptyString => nullable r
  | String c s' => test (deriv c r) s'
  end.

End Regex.

(** ** JSON values of a request body *)

Inductive JsonValue : Type :=
| JUndefined                 (* the property is absent *)
| JNull
| JBool (b : bool)
| JNumber (n : Z)
| JString (s : string).

#[global] Instance JsonValue_eq_dec : EqDecision JsonValue.
Proof. solve_decision. Defined.

(** JavaScript truthiness, as used by [!x] and [x || y]. *)
Definition truthy (v : JsonValue) : bool :=
  match v with
  | JUndefined | JNull => false
  | JBool b => b
  | JNumber n => negb (n =? 0)
  | JString s => negb (String.eqb s "")
  end.

(** [String(v)], the coercion applied by [RegExp.prototype.test]. *)
Definition ToString (v : JsonValue) : string :=
  match v with
  | JUndefined => "undefined"
  | JNull => "null"
  | JBool true => "true"
  | JBool false => "false"
  | JNumber n => NilZero.string_of_int (Z.to_int n)
  | JString s => s
  end.

(** ** Data model ([src/services/dynamodb.ts], interfaces) *)

Record Category : Type := { cat_id : string; cat_name : string; color : string }.

Record Capacity : Type := { max : Z; registered : Z }.

Record Pricing : Type := { individual : Z }.

Inductive LocationType : Type := physical | online.

Record Location : Type := { type : LocationType; address : option string }.

(** The attributes of an event record other than its key. *)
Record EventAttributes : Type := {
  title : string;
  description : string;
  date : string;
  category : Category;
  capacity : Capacity;
  pricing : Pricing;
  location : Location;
}.

Record Event : Type := { id : string; attributes :> EventAttributes }.

(** The attributes of a registration record other than its key.  The
    handler passes [attendeeEmail] on as it came out of the request body. *)
Record RegistrationAttributes : Type := {
  attendeeEmail : JsonValue;
  attendeeName : string;
  groupSize : Z;
  registeredAt : string;
}.

Record Registration : Type := {
  registrationId : string;
  registration_attributes :> RegistrationAttributes;
}.

(** ** The table *)

Inductive Attributes : Type :=
| EventRecord (e : EventAttributes)
| RegistrationRecord (r : RegistrationAttributes).

(** Composite primary key [(PK, SK)]. *)
Abbreviation Key := (string * string)%type.
Abbreviation Item := (Key * Attributes)%type.
Abbreviation Table := (gmap (string * string) Attributes).

Definition PK (it : Item) : string := it.1.1.
Definition SK (it : Item) : string := it.1.2.

Definition METADATA : string := "METADATA".
Definition EVENT_ (eventId : string) : string := "EVENT#" ++ eventId.
Definition REGISTRATION_ (registrationId : string) : string :=
  "REGISTRATION#" ++ registrationId.

(** What a rejected promise or a [throw] carries. *)
Record JsError : Type := { name : string; message : string }.

Definition Error (msg : string) : JsError := {| name := "Error"; message := msg |}.
Definition TypeError (msg : string) : JsError :=
  {| name := "TypeError"; message := msg |}.
Definition ConditionalCheckFailedException : JsError :=
  {| name := "ConditionalCheckFailedException";
     message := "The conditional request failed" |}.
Definition ValidationException : JsError :=
  {| name := "ValidationException"; message := "Limit must be at least 1" |}.

(** ** Commands sent to the table *)

Record ScanCommandInput : Type := {
  scan_FilterSK : string;              (* FilterExpression: SK = :metadata *)
  scan_Limit : Z;
  ExclusiveStartKey : option Key;
}.

Record ScanCommandOutput : Type := {
  Items : list Item;
  LastEvaluatedKey : option Key;
}.

Record QueryCommandInput : Type := {
  query_PK : string;                   (* KeyConditionExpression: PK = :pk *)
  query_SK_begins_with : string;       (*   AND begins_with(SK, :sk) *)
  query_FilterEmail : JsonValue;       (* FilterExpression: attendeeEmail = :email *)
  query_Limit : Z;
}.

Record UpdateItemCommandInput : Type := {
  update_Key : Key;
  newRegistered : Z;       (* SET capacity.registered = :newRegistered *)
  currentRegistered : Z;   (* ConditionExpression: capacity.registered = :currentRegistered *)
}.

Inductive Command : Type :=
| ScanCommand (input : ScanCommandInput)
| GetItemCommand (key : Key)
| PutItemCommand (key : Key) (item : Attributes)
| UpdateItemCommand (input : UpdateItemCommandInput)
| QueryCommand (input : QueryCommandInput).

Definition Output (c : Command) : Type :=
  match c with
  | ScanCommand _ => ScanCommandOutput
  | GetItemCommand _ => option Attributes         (* result.Item *)
  | PutItemCommand _ _ => unit
  | UpdateItemCommand _ => Attributes             (* ReturnValues: ALL_NEW *)
  | QueryCommand _ => list Item                   (* result.Items *)
  end.

(** A settled promise: rejected with an error, or fulfilled. *)
Abbreviation Settled A := (JsError + A)%type.

(** *** Semantics of the commands on a table *)

(** The items of the table in the order a scan visits them. *)
Definition scan_order (t : Table) : list Item := map_to_list t.

(** The part of a scan that follows the exclusive start key. *)
Fixpoint after (k : Key) (l : list Item) : list Item :=
  match l with
  | [] => []
  | it :: rest => if decide (it.1 = k) then rest else after k rest
  end.

(** [Limit] bounds the number of items evaluated; the filter is applied to
    the evaluated items; [LastEvaluatedKey] is returned when the scan
    stopped at the limit. *)
Definition scan (input : ScanCommandInput) (t : Table) : Settled ScanCommandOutput :=
  if scan_Limit input <? 1 then inl ValidationException
  else
    let rest := match ExclusiveStartKey input with
                | None => scan_order t
                | Some k => after k (scan_order t)
                end in
    let evaluated := take (Z.to_nat (scan_Limit input)) rest in
    inr {| Items := List.filter (fun it => String.eqb (SK it) (scan_FilterSK input))
                                evaluated;
           LastEvaluatedKey :=
             if Z.of_nat (length rest) <? scan_Limit input then None
             else fst <$> last evaluated |}.

(** Sort keys are ordered by their bytes. *)
Definition SK_le (a b : Item) : Prop := String.leb (SK a) (SK b) = true.

#[global] Instance SK_le_dec a b : Decision (SK_le a b).
Proof. unfold SK_le. apply _. Defined.

(** The items of one partition whose sort key has the prefix, by sort key. *)
Definition partition_range (pk prefix : string) (t : Table) : list Item :=
  merge_sort SK_le
    (List.filter (fun it => String.eqb (PK it) pk && String.prefix prefix (SK it))
                 (map_to_list t)).

Definition email_matches (email : JsonValue) (it : Item) : bool :=
  match it.2 with
  | RegistrationRecord r => bool_decide (attendeeEmail r = email)
  | EventRecord _ => false
  end.

(** A query evaluates at most [Limit] items of the range and applies the
    filter expression to the evaluated items only. *)
Definition query (input : QueryCommandInput) (t : Table) : Settled (list Item) :=
  if query_Limit input <? 1 then inl ValidationException
  else
    inr (List.filter (email_matches (query_FilterEmail input))
           (take (Z.to_nat (query_Limit input))
                 (partition_range (query_PK input) (query_SK_begins_with input) t))).

(** A conditional update of [capacity.registered]. *)
Definition setRegistered (n : Z) (e : EventAttributes) : EventAttributes :=
  {| title := title e; description := description e; date := date e;
     category := category e;
     capacity := {| max := max (capacity e); registered := n |};
     pricing := pricing e; location := location e |}.

Definition update (input : UpdateItemCommandInput) (t : Table)
  : Settled Attributes * Table :=
  match t !! update_Key input with
  | Some (EventRecord e) =>
      if registered (capacity e) =? currentRegistered input
      then let e' := EventRecord (setRegistered (newRegistered input) e) in
           (inr e', <[update_Key input := e']> t)
      else (inl ConditionalCheckFailedException, t)
  | _ => (inl ConditionalCheckFailedException, t)
  end.

Definition perform (c : Command) (t : Table) : Settled (Output c) * Table :=
  match c with
  | ScanCommand input => (scan input t, t)
  | GetItemCommand key => (inr (t !! key), t)
  | PutItemCommand key item => (inr tt, <[key := item]> t)
  | UpdateItemCommand input => update input t
  | QueryCommand input => (query input t, t)
  end.

(** ** Asynchronous programs

    A program either returns, throws, or sends a command and continues
    with the settled promise. *)

Inductive Prog (R : Type) : Type :=
| Return (r : R)
| Throw (e : JsError)
| Send (c : Command) (k : Settled (Output c) -> Prog R).

Arguments Return {R} r.
Arguments Throw {R} e.
Arguments Send {R} c k.

Fixpoint bind {A B : Type} (p : Prog A) (f : A -> Prog B) : Prog B :=
  match p with
  | Return a => f a
  | Throw e => Throw e
  | Send c k => Send c (fun a => bind (k a) f)
  end.

(** [try { p } catch (error) { h error }] *)
Fixpoint try_catch {A : Type} (p : Prog A) (h : JsError -> Prog A) : Prog A :=
  match p with
  | Return a => Return a
  | Throw e => h e
  | Send c k => Send c (fun a => try_catch (k a) h)
  end.

(** [await client.send(command)] *)
Definition send (c : Command) : Prog (Output c) :=
  Send c (fun settled => match settled with
                         | inl e => Throw e
                         | inr out => Return out
                         end).

(** [const x = await p; q] *)
Notation "'await' x <- p ; q" := (bind p (fun x => q))
  (at level 10, x name, p at level 100, q at level 200,
   format "'[v' 'await'  x  <-  p ; '/' q ']'").

(** Running one program alone.  Each command consumes one entry of
    [faults]: [Some e] makes the command reject with [e] and leaves the
    table as it is; [None], or an exhausted list, performs the command. *)
Fixpoint run {R : Type} (p : Prog R) (faults : list (option JsError)) (t : Table)
  : Settled R * Table :=
  match p with
  | Return r => (inr r, t)
  | Throw e => (inl e, t)
  | Send c k =>
      match faults with
      | Some e :: faults' => run (k (inl e)) faults' t
      | None :: faults' => let '(out, t') := perform c t in run (k out) faults' t'
      | [] => let '(out, t') := perform c t in run (k out) [] t'
      end
  end.

(** The number of commands a run sends. *)
Fixpoint sent {R : Type} (p : Prog R) (faults : list (option JsError)) (t : Table)
  : nat :=
  match p with
  | Return _ | Throw _ => 0
  | Send c k =>
      match faults with
      | Some e :: faults' => S (sent (k (inl e)) faults' t)
      | None :: faults' => let '(out, t') := perform c t in S (sent (k out) faults' t')
      | [] => let '(out, t') := perform c t in S (sent (k out) [] t')
      end
  end.

(** ** The service layer ([src/services/dynamodb.ts]) *)

Record ListEventsParams : Type := {
  params_category : option string;
  params_search : option string;
  params_status : option string;
  params_limit : option Z;        (* [None]: undefined or NaN *)
  params_lastKey : option Key;    (* the decoded token *)
}.

Record ListEventsResult : Type := {
  events : list Event;
  total : Z;
  lastKey : option Key;           (* the token before encoding *)
}.

(** An item read as an event.  An item without event attributes makes the
    property accesses that follow throw; the embedding raises at the read. *)
Definition unmarshallEvent (eventId : string) (item : Attributes) : Prog Event :=
  match item with
  | EventRecord e => Return {| id := eventId; attributes := e |}
  | RegistrationRecord _ =>
      Throw (TypeError "Cannot read properties of undefined")
  end.

(** [x || d] on an optional number and [params.x ? ... : ...] on an
    optional string *)
Definition number_or (x : option Z) (d : Z) : Z :=
  match x with
  | Some n => if n =? 0 then d else n
  | None => d
  end.

Definition truthy_string (x : option string) : option string :=
  match x with
  | Some s => if String.eqb s "" then None else Some s
  | None => None
  end.

(** [xs.slice(0, end)] *)
Definition slice0 {A : Type} (xs : list A) (end_ : Z) : list A :=
  if end_ <? 0 then take (Z.to_nat (Z.of_nat (length xs) + end_)) xs
  else take (Z.to_nat end_) xs.

Fixpoint mapM {A B : Type} (f : A -> Prog B) (l : list A) : Prog (list B) :=
  match l with
  | [] => Return []
  | a :: l' => await b <- f a; await bs <- mapM f l'; Return (b :: bs)
  end.

(** The part of [listEvents] that follows [await client.send(command)]. *)
Definition listEvents_filter (params : ListEventsParams) (events : list Event)
  : list Event :=
  let events :=
    match truthy_string (params_category params) with
    | Some c => List.filter (fun e : Event => String.eqb (cat_id (category e)) c) events
    | None => events
    end in
  let events :=
    match truthy_string (params_search params) with
    | Some search =>
        let searchLower := Js.toLowerCase search in
        List.filter (fun e : Event => Js.includes (Js.toLowerCase (title e)) searchLower
                           || Js.includes (Js.toLowerCase (description e)) searchLower)
                    events
    | None => events
    end in
  match truthy_string (params_status params) with
  | Some status =>
      if String.eqb status "available"
      then List.filter (fun e : Event => registered (capacity e) <? max (capacity e)) events
      else if String.eqb status "full"
      then List.filter (fun e : Event => registered (capacity e) >=? max (capacity e)) events
      else events
  | None => events
  end.

Definition listEvents_limit (params : ListEventsParams) : Z :=
  Z.min (number_or (params_limit params) 25) 100.

Definition listEvents_result (params : ListEventsParams) (events : list Event)
    (LastEvaluatedKey : option Key) : ListEventsResult :=
  let limit := listEvents_limit params in
  let limitedEvents := slice0 events limit in
  let hasMore := (limit <? Z.of_nat (length events)) || bool_decide (is_Some LastEvaluatedKey) in
  {| events := limitedEvents;
     total := Z.of_nat (length limitedEvents);
     lastKey := if hasMore then LastEvaluatedKey else None |}.

Definition listEvents (params : ListEventsParams) : Prog ListEventsResult :=
  let limit := listEvents_limit params in
  await result <- send (ScanCommand {| scan_FilterSK := METADATA;
                                scan_Limit := limit * 2;
                                ExclusiveStartKey := params_lastKey params |});
  await events <- mapM (fun item => unmarshallEvent (Js.replace (PK item) "EVENT#" "") item.2)
                (Items result);
  Return (listEvents_result params (listEvents_filter params events)
                            (LastEvaluatedKey result)).

Definition getEvent (eventId : string) : Prog (option Event) :=
  await result <- send (GetItemCommand (EVENT_ eventId, METADATA));
  match result with
  | None => Return None
  | Some item => await event <- unmarshallEvent eventId item; Return (Some event)
  end.

Definition checkDuplicateRegistration (eventId : string) (email : JsonValue)
  : Prog bool :=
  await items <- send (QueryCommand {| query_PK := EVENT_ eventId;
                                query_SK_begins_with := "REGISTRATION#";
                                query_FilterEmail := email;
                                query_Limit := 1 |});
  Return (Z.of_nat (length items) >? 0).

(** What [Date.now()], [Math.random()] and [new Date()] give one call of
    [registerForEvent]. *)
Record Generated : Type := {
  gen_registrationId : string;
  gen_registeredAt : string;
}.

Definition registerForEvent (g : Generated) (eventId : string)
    (attendeeEmail : JsonValue) (attendeeName : string) (groupSize : Z)
  : Prog (Registration * Event) :=
  let registrationId := gen_registrationId g in
  let registeredAt := gen_registeredAt g in
  (* First, get the current event to check capacity *)
  await event <- getEvent eventId;
  match event with
  | None => Throw (Error "EVENT_NOT_FOUND")
  | Some event =>
      (* Check if there's enough capacity *)
      let newRegistered := registered (capacity event) + groupSize in
      if newRegistered >? max (capacity event)
      then Throw (Error "INSUFFICIENT_CAPACITY")
      else
        (* Update event capacity atomically with optimistic locking *)
        let updateCommand :=
          UpdateItemCommand {| update_Key := (EVENT_ eventId, METADATA);
                               newRegistered := newRegistered;
                               currentRegistered := registered (capacity event) |} in
        await updatedItem <- try_catch (send updateCommand)
          (fun error =>
             if String.eqb (name error) "ConditionalCheckFailedException"
             then (* Someone else updated the capacity in the meantime *)
                  Throw (Error "INSUFFICIENT_CAPACITY")
             else Throw error);
        (* Create registration record *)
        let attrs := {| attendeeEmail := attendeeEmail;
                        attendeeName := attendeeName;
                        groupSize := groupSize;
                        registeredAt := registeredAt |} in
        await _ <- send (PutItemCommand (EVENT_ eventId, REGISTRATION_ registrationId)
                                 (RegistrationRecord attrs));
        await updatedEvent <- unmarshallEvent eventId updatedItem;
        Return ({| registrationId := registrationId;
                   registration_attributes := attrs |},
                updatedEvent)
  end.

(** ** The register handler ([src/handlers/events.ts]) *)

Record Attendee : Type := {
  email : JsonValue;
  attendee_name : string;
  attendee_groupSize : Z;
  attendee_registeredAt : string;
}.

(** The response body before [JSON.stringify]. *)
Inductive ResponseBody : Type :=
| ErrorBody (error message : string)
| RegisteredBody (success : bool) (registrationId : string) (event : Event)
                 (attendee : Attendee).

(** The CORS headers are the same in every response and are left out. *)
Record APIGatewayProxyResult : Type := {
  statusCode : Z;
  body : ResponseBody;
}.

Definition successResponse (data : ResponseBody) : APIGatewayProxyResult :=
  {| statusCode := 200; body := data |}.

Definition errorResponse (statusCode : Z) (error message : string)
  : APIGatewayProxyResult :=
  {| statusCode := statusCode; body := ErrorBody error message |}.

(** [/^[^\s@]+@[^\s@]+\.[^\s@]+$/] *)
Definition notSpaceNorAt (c : ascii) : bool :=
  negb (Js.isWhiteSpace c || Ascii.eqb c "@").

Definition emailRegex : Regex.t :=
  Regex.Cat (Regex.Plus (Regex.Class notSpaceNorAt))
    (Regex.Cat (Regex.Class (Ascii.eqb "@"))
       (Regex.Cat (Regex.Plus (Regex.Class notSpaceNorAt))
          (Regex.Cat (Regex.Class (Ascii.eqb "."))
             (Regex.Plus (Regex.Class notSpaceNorAt))))).

Definition validateEmail (email : JsonValue) : bool :=
  Regex.test emailRegex (ToString email).

(** [JSON.parse(event.body || "{}")] followed by the destructuring of
    [attendeeEmail], [attendeeName] and [groupSize]. *)
Inductive ParsedBody : Type :=
| InvalidJson                 (* JSON.parse throws *)
| ParsedNull                  (* the body is the JSON value null *)
| Parsed (attendeeEmail attendeeName groupSize : JsonValue).

Record RegisterRequest : Type := {
  pathParameters_id : option string;
  request_body : ParsedBody;
}.

Definition typeof (v : JsonValue) : string :=
  match v with
  | JUndefined => "undefined"
  | JNull => "object"
  | JBool _ => "boolean"
  | JNumber _ => "number"
  | JString _ => "string"
  end.

Definition asString (v : JsonValue) : string :=
  match v with JString s => s | _ => "" end.

Definition asNumber (v : JsonValue) : Z :=
  match v with JNumber n => n | _ => 0 end.

(** Every number of the embedding is an integer. *)
Definition Number_isInteger (v : JsonValue) : bool :=
  match v with JNumber _ => true | _ => false end.

(** The [attendee] object of the success response. *)
Definition attendee_of (registration : Registration) : Attendee :=
  {| email := attendeeEmail registration;
     attendee_name := attendeeName registration;
     attendee_groupSize := groupSize registration;
     attendee_registeredAt := registeredAt registration |}.

Definition registerEventHandler (g : Generated) (event : RegisterRequest)
  : Prog APIGatewayProxyResult :=
  try_catch
    (match truthy_string (pathParameters_id event) with
     | None => Return (errorResponse 400 "INVALID_REQUEST" "Event ID is required")
     | Some eventId =>
     (* Parse request body *)
     match request_body event with
     | InvalidJson =>
         Return (errorResponse 400 "INVALID_REQUEST" "Invalid JSON in request body")
     | ParsedNull => Throw (TypeError "Cannot destructure property of null")
     | Parsed attendeeEmail attendeeName groupSize_ =>
     let groupSize := match groupSize_ with JUndefined => JNumber 1 | v => v end in
     (* Validate required fields *)
     if negb (truthy attendeeEmail) || negb (truthy attendeeName)
     then Return (errorResponse 400 "INVALID_REQUEST"
                    "Missing required fields: attendeeEmail, attendeeName")
     (* Validate email format *)
     else if negb (validateEmail attendeeEmail)
     then Return (errorResponse 400 "INVALID_EMAIL"
                    "Please provide a valid email address")
     (* Validate attendeeName is non-empty *)
     else if negb (String.eqb (typeof attendeeName) "string")
             || (String.length (Js.trim (asString attendeeName)) =? 0)%nat
     then Return (errorResponse 400 "INVALID_REQUEST"
                    "Attendee name must be a non-empty string")
     (* Validate groupSize *)
     else if negb (String.eqb (typeof groupSize) "number")
             || (asNumber groupSize <? 1)
             || negb (Number_isInteger groupSize)
     then Return (errorResponse 400 "INVALID_REQUEST"
                    "Group size must be a positive integer")
     else
     (* Check if event exists *)
     await existingEvent <- getEvent eventId;
     match existingEvent with
     | None => Return (errorResponse 404 "EVENT_NOT_FOUND" "Event not found")
     | Some existingEvent =>
     (* Check for duplicate registration *)
     await isDuplicate <- checkDuplicateRegistration eventId attendeeEmail;
     if isDuplicate : bool
     then Return (errorResponse 400 "DUPLICATE_REGISTRATION"
                    "This email is already registered for this event")
     (* Check if event is already full *)
     else if registered (capacity existingEvent) >=? max (capacity existingEvent)
     then Return (errorResponse 400 "EVENT_FULL"
                    "Event has reached maximum capacity")
     else
     (* Register for event *)
     try_catch
       (await result <- registerForEvent g eventId attendeeEmail
                          (asString attendeeName) (asNumber groupSize);
        Return (successResponse
                  (RegisteredBody true (registrationId result.1) result.2
                                  (attendee_of result.1))))
       (fun error =>
          if String.eqb (message error) "INSUFFICIENT_CAPACITY"
          then Return (errorResponse 400 "INSUFFICIENT_CAPACITY"
                         "Not enough spots available for group size")
          else Throw error)
     end
     end
     end)
    (fun error =>
       Return (errorResponse 500 "INTERNAL_ERROR" "Failed to register for event")).

(** ** Concurrent requests

    Each request is handled by its own execution of the handler; the
    requests share nothing but the table.  A command is one atomic step on
    the table, and the steps of different requests interleave freely. *)

Record System : Type := {
  table : Table;
  requests : list (Prog APIGatewayProxyResult);
}.

Inductive Action : Type :=
| Arrive (g : Generated) (event : RegisterRequest)   (* a new request starts *)
| Deliver (i : nat)               (* the pending command of request [i] is performed *)
| Reject (i : nat) (e : JsError). (* the pending command of request [i] is rejected *)

Definition exec (a : Action) (sys : System) : option System :=
  match a with
  | Arrive g event =>
      Some {| table := table sys;
              requests := requests sys ++ [registerEventHandler g event] |}
  | Deliver i =>
      match requests sys !! i with
      | Some (Send c k) =>
          let '(out, t') := perform c (table sys) in
          Some {| table := t'; requests := <[i := k out]> (requests sys) |}
      | _ => None
      end
  | Reject i e =>
      match requests sys !! i with
      | Some (Send c k) =>
          Some {| table := table sys;
                  requests := <[i := k (inl e)]> (requests sys) |}
      | _ => None
      end
  end.

Fixpoint execs (acts : list Action) (sys : System) : option System :=
  match acts with
  | [] => Some sys
  | a :: acts' =>
      match exec a sys with
      | Some sys' => execs acts' sys'
      | None => None
      end
  end.

Definition initial (t : Table) : System := {| table := t; requests := [] |}.

Definition reachable (t0 : Table) (sys : System) : Prop :=
  exists acts, execs acts (initial t0) = Some sys.

(** The response of request [i], once it has returned. *)
Definition response (sys : System) (i : nat) : option APIGatewayProxyResult :=
  match requests sys !! i with
  | Some (Return r) => Some r
  | _ => None
  end.

(** ** Predicates used by the statements *)

(** The request carries an event id and the fields [attendeeEmail],
    [attendeeName] and [groupSize] (1 when absent) that pass every check of
    the handler made before the first command is sent. *)
Definition wellFormed (event : RegisterRequest) (eventId : string)
    (attendeeEmail : JsonValue) (attendeeName : string) (groupSize : Z) : Prop :=
  pathParameters_id event = Some eventId /\ eventId <> "" /\
  (request_body event = Parsed attendeeEmail (JString attendeeName) JUndefined
     /\ groupSize = 1
   \/ request_body event
      = Parsed attendeeEmail (JString attendeeName) (JNumber groupSize)) /\
  truthy attendeeEmail = true /\
  validateEmail attendeeEmail = true /\
  Js.trim attendeeName <> "" /\
  1 <= groupSize.

(** The handler from its first command on. *)
Definition afterValidation (g : Generated) (eventId : string)
    (attendeeEmail : JsonValue) (attendeeName : string) (groupSize : Z)
  : Prog APIGatewayProxyResult :=
  try_catch
    (await existingEvent <- getEvent eventId;
     match existingEvent with
     | None => Return (errorResponse 404 "EVENT_NOT_FOUND" "Event not found")
     | Some existingEvent =>
     await isDuplicate <- checkDuplicateRegistration eventId attendeeEmail;
     if isDuplicate : bool
     then Return (errorResponse 400 "DUPLICATE_REGISTRATION"
                    "This email is already registered for this event")
     else if registered (capacity existingEvent) >=? max (capacity existingEvent)
     then Return (errorResponse 400 "EVENT_FULL"
                    "Event has reached maximum capacity")
     else
     try_catch
       (await result <- registerForEvent g eventId attendeeEmail attendeeName groupSize;
        Return (successResponse
                  (RegisteredBody true (registrationId result.1) result.2
                                  (attendee_of result.1))))
       (fun error =>
          if String.eqb (message error) "INSUFFICIENT_CAPACITY"
          then Return (errorResponse 400 "INSUFFICIENT_CAPACITY"
                         "Not enough spots available for group size")
          else Throw error)
     end)
    (fun error =>
       Return (errorResponse 500 "INTERNAL_ERROR" "Failed to register for event")).

(** The outcome of a well-formed request for an existing event when no
    command is rejected by the infrastructure. *)
Definition outcome (g : Generated) (eventId : string) (attendeeEmail : JsonValue)
    (attendeeName : string) (groupSize : Z) (e : EventAttributes)
    (isDuplicate : bool) (t : Table) : APIGatewayProxyResult * Table :=
  if isDuplicate
  then (errorResponse 400 "DUPLICATE_REGISTRATION"
          "This email is already registered for this event", t)
  else if registered (capacity e) >=? max (capacity e)
  then (errorResponse 400 "EVENT_FULL" "Event has reached maximum capacity", t)
  else if registered (capacity e) + groupSize >? max (capacity e)
  then (errorResponse 400 "INSUFFICIENT_CAPACITY"
          "Not enough spots available for group size", t)
  else
    let e' := setRegistered (registered (capacity e) + groupSize) e in
    let attrs := {| attendeeEmail := attendeeEmail; attendeeName := attendeeName;
                    groupSize := groupSize; registeredAt := gen_registeredAt g |} in
    (successResponse
       (RegisteredBody true (gen_registrationId g)
          {| id := eventId; attributes := e' |}
          (attendee_of {| registrationId := gen_registrationId g;
                          registration_attributes := attrs |})),
     <[(EVENT_ eventId, REGISTRATION_ (gen_registrationId g)) := RegistrationRecord attrs]>
       (<[(EVENT_ eventId, METADATA) := EventRecord e']> t)).

(** No oversell: every event record has [registered <= max]. *)
Definition capacity_ok_item (item : Attributes) : bool :=
  match item with
  | EventRecord e => registered (capacity e) <=? max (capacity e)
  | RegistrationRecord _ => true
  end.

Definition capacity_ok (t : Table) : Prop :=
  map_Forall (fun _ item => capacity_ok_item item = true) t.

(** The event has no registration record. *)
Definition noRegistrations (t : Table) (eventId : string) : Prop :=
  forall sk, String.prefix "REGISTRATION#" sk = true ->
             t !! (EVENT_ eventId, sk) = None.

(** Under the sort key [METADATA] the table holds event records. *)
Definition typed (t : Table) : Prop :=
  forall pk item, t !! (pk, METADATA) = Some item -> exists e, item = EventRecord e.

(** *** Invariants of concurrent executions *)

(** The maximum recorded under a key that holds an event record. *)
Definition maxOf (t : Table) (key : Key) : option Z :=
  match t !! key with
  | Some (EventRecord e) => Some (max (capacity e))
  | _ => None
  end.

(** Every event record of [t] is an event of [t0] with the maximum it had
    there: no command creates an event or changes a maximum. *)
Definition frozen (t0 t : Table) : Prop :=
  forall key e, t !! key = Some (EventRecord e) ->
                maxOf t0 key = Some (max (capacity e)).

(** A command that cannot break [capacity_ok]: an update writes a value of
    [registered] that is within the maximum of the event, a put writes a
    registration record. *)
Definition command_ok (M : Key -> option Z) (c : Command) : Prop :=
  match c with
  | UpdateItemCommand input =>
      forall m, M (update_Key input) = Some m -> newRegistered input <= m
  | PutItemCommand _ item => exists r, item = RegistrationRecord r
  | _ => True
  end.

(** What a request may assume of the answer to a command: an event record
    read from the table carries the maximum of its event. *)
Definition answer_ok (M : Key -> option Z) (c : Command)
  : Settled (Output c) -> Prop :=
  match c with
  | GetItemCommand key =>
      fun out => forall e, out = inr (Some (EventRecord e)) ->
                           M key = Some (max (capacity e))
  | _ => fun _ => True
  end.

(** Every command the program can come to send is [command_ok]. *)
Fixpoint Safe {R : Type} (M : Key -> option Z) (p : Prog R) : Prop :=
  match p with
  | Send c k => command_ok M c /\ forall out, answer_ok M c out -> Safe M (k out)
  | _ => True
  end.

Definition insufficientCapacity : APIGatewayProxyResult :=
  errorResponse 400 "INSUFFICIENT_CAPACITY" "Not enough spots available for group size".

(** Wherever the program sends a conditional update, the continuation of a
    failed condition check is the return of [INSUFFICIENT_CAPACITY]. *)
Definition failsFast (c : Command)
  : (Settled (Output c) -> Prog APIGatewayProxyResult) -> Prop :=
  match c with
  | UpdateItemCommand _ =>
      fun k => forall e, name e = "ConditionalCheckFailedException" ->
                         k (inl e) = Return insufficientCapacity
  | _ => fun _ => True
  end.

Fixpoint FailFast (p : Prog APIGatewayProxyResult) : Prop :=
  match p with
  | Send c k => failsFast c k /\ forall out, FailFast (k out)
  | _ => True
  end.

(** A table as the seed script leaves it: event records only, under the
    sort key [METADATA], with [registered] not negative. *)
Definition seeded_item (key : Key) (item : Attributes) : bool :=
  match item with
  | EventRecord e => String.eqb key.2 METADATA && (0 <=? registered (capacity e))
  | RegistrationRecord _ => false
  end.

Definition seeded (t : Table) : Prop :=
  map_Forall (fun key item => seeded_item key item = true) t.

(** Registration records are covered by the capacity counter: [registered]
    is never negative, and an event with [registered = 0] has no
    registration record. *)
Definition booked (t : Table) : Prop :=
  (forall key e, t !! key = Some (EventRecord e) -> 0 <= registered (capacity e)) /\
  (forall pk e, t !! (pk, METADATA) = Some (EventRecord e) ->
                registered (capacity e) = 0 ->
                forall sk, String.prefix "REGISTRATION#" sk = true ->
                           t !! (pk, sk) = None).

(** The partitions in [paid] are those in which a request has already
    raised [registered]; their events have [registered >= 1]. *)
Definition known (t : Table) (paid : list string) : Prop :=
  forall pk, pk ∈ paid ->
  forall e, t !! (pk, METADATA) = Some (EventRecord e) -> 1 <= registered (capacity e).

(** An update writes a positive [registered] to an event record; a put
    writes a registration record into a partition already paid for. *)
Definition paid_command (paid : list string) (c : Command) : Prop :=
  match c with
  | UpdateItemCommand input =>
      (update_Key input).2 = METADATA /\ 1 <= newRegistered input
  | PutItemCommand key item =>
      (exists r, item = RegistrationRecord r) /\ key.1 ∈ paid /\ key.2 <> METADATA
  | _ => True
  end.

Definition paid_answer (c : Command) : Settled (Output c) -> Prop :=
  match c with
  | GetItemCommand key =>
      fun out => forall e, out = inr (Some (EventRecord e)) ->
                           0 <= registered (capacity e)
  | _ => fun _ => True
  end.

Definition paid_after (paid : list string) (c : Command)
  : Settled (Output c) -> list string :=
  match c with
  | UpdateItemCommand input =>
      fun out => match out with
                 | inr _ => (update_Key input).1 :: paid
                 | inl _ => paid
                 end
  | _ => fun _ => paid
  end.

Fixpoint Paid {R : Type} (paid : list string) (p : Prog R) : Prop :=
  match p with
  | Send c k =>
      paid_command paid c /\
      forall out, paid_answer c out -> Paid (paid_after paid c out) (k out)
  | _ => True
  end.

Definition booked_invariant (sys : System) : Prop :=
  booked (table sys) /\
  Forall (fun p => exists paid, known (table sys) paid /\ Paid paid p) (requests sys).

(** The invariant of the concurrent system started on [t0]. *)
Definition invariant (t0 : Table) (sys : System) : Prop :=
  capacity_ok (table sys) /\ frozen t0 (table sys) /\
  Forall (Safe (maxOf t0)) (requests sys).

(** Two requests for the last place of an event, interleaved command by
    command: both read the event and pass the checks, request 0 updates
    the capacity, and request 1 is about to send its conditional update. *)
Definition lastPlaceRace : list Action :=
  [Arrive {| gen_registrationId := "reg_a"; gen_registeredAt := "2024-12-01T15:30:00Z" |}
          {| pathParameters_id := Some "1";
             request_body := Parsed (JString "ann@example.com") (JString "Ann") JUndefined |};
   Arrive {| gen_registrationId := "reg_b"; gen_registeredAt := "2024-12-01T15:30:00Z" |}
          {| pathParameters_id := Some "1";
             request_body := Parsed (JString "bob@example.com") (JString "Bob") JUndefined |};
   Deliver 0; Deliver 1; Deliver 0; Deliver 1; Deliver 0; Deliver 1; Deliver 0].

(** The system after the actions, started on table [t]. *)
Definition after_actions (acts : list Action) (t : Table) : System :=
  default (initial t) (execs acts (initial t)).

(** ** Sample data *)

Definition sampleEvent (categoryId : string) (max registered : Z) : EventAttributes :=
  {| title := "React Workshop";
     description := "Learn React basics";
     date := "2024-12-15T09:00:00Z";
     category := {| cat_id := categoryId; cat_name := categoryId; color := "#3B82F6" |};
     capacity := {| max := max; registered := registered |};
     pricing := {| individual := 50 |};
     location := {| type := physical; address := Some "123 Main St" |} |}.

Definition sampleRegistration (email name : string) : RegistrationAttributes :=
  {| attendeeEmail := JString email; attendeeName := name; groupSize := 1;
     registeredAt := "2024-12-01T15:30:00Z" |}.

Definition sampleRequest (eventId email name : string) (groupSize : JsonValue)
  : RegisterRequest :=
  {| pathParameters_id := Some eventId;
     request_body := Parsed (JString email) (JString name) groupSize |}.

Definition generated (n : string) : Generated :=
  {| gen_registrationId := "reg_" ++ n; gen_registeredAt := "2024-12-01T15:30:00Z" |}.

(** One event with the given capacity and no registration. *)
Definition oneEvent (eventId : string) (max registered : Z) : Table :=
  {[ (EVENT_ eventId, METADATA) := EventRecord (sampleEvent "technology" max registered) ]}.

(** One event with two registration records; in sort-key order the record
    of [first@example.com] comes before that of [second@example.com]. *)
Definition twoRegistrations : Table :=
  <[(EVENT_ "1", REGISTRATION_ "reg_2") :=
      RegistrationRecord (sampleRegistration "second@example.com" "Second")]>
  (<[(EVENT_ "1", REGISTRATION_ "reg_1") :=
      RegistrationRecord (sampleRegistration "first@example.com" "First")]>
   (oneEvent "1" 10 2)).

(** Three events and nothing else. *)
Definition threeEvents : Table :=
  <[(EVENT_ "3", METADATA) := EventRecord (sampleEvent "design" 20 20)]>
  (<[(EVENT_ "2", METADATA) := EventRecord (sampleEvent "technology" 10 9)]>
   (oneEvent "1" 30 0)).

Definition noFilter (limit : option Z) : ListEventsParams :=
  {| params_category := None; params_search := None; params_status := None;
     params_limit := limit; params_lastKey := None |}.

(** ** The read handlers ([src/handlers/events.ts]) *)

(** [parseInt(s, 10)]: leading white space is skipped, a sign is read, and
    the longest run of decimal digits is the value; [None] is [NaN]. *)
Definition digitValue (c : ascii) : option Z :=
  let n := nat_of_ascii c in
  if ((48 <=? n) && (n <=? 57))%nat then Some (Z.of_nat n - 48) else None.

Fixpoint parseDigits (s : string) (acc : option Z) : option Z :=
  match s with
  | EmptyString => acc
  | String c rest =>
      match digitValue c with
      | Some d => parseDigits rest (Some (default 0 acc * 10 + d))
      | None => acc
      end
  end.

Definition parseInt10 (s : string) : option Z :=
  match Js.trimStart s with
  | String "-" rest => Z.opp <$> parseDigits rest None
  | String "+" rest => parseDigits rest None
  | rest => parseDigits rest None
  end.

(** The body of a response of the two read handlers before
    [JSON.stringify]. *)
Inductive ReadBody : Type :=
| ReadError (error message : string)
| EventData (event : Event)                  (* { event: eventData } *)
| ListData (result : ListEventsResult).

Record ReadResult : Type := {
  read_statusCode : Z;
  read_body : ReadBody;
}.

Definition readSuccess (data : ReadBody) : ReadResult :=
  {| read_statusCode := 200; read_body := data |}.

Definition readError (statusCode : Z) (error message : string) : ReadResult :=
  {| read_statusCode := statusCode; read_body := ReadError error message |}.

(** [event.queryStringParameters || {}]; [query_lastKey] is the decoded
    token. *)
Record ListRequest : Type := {
  query_category : option string;
  query_search : option string;
  query_status : option string;
  query_limit : option string;
  query_lastKey : option Key;
}.

(** [limit && (isNaN(limit) || limit < 1 || limit > 100)], where [limit] is
    [undefined], [NaN] (both [None]) or a number. *)
Definition limit_rejected (limit : option Z) : bool :=
  match limit with
  | Some n => negb (n =? 0) && ((n <? 1) || (n >? 100))
  | None => false
  end.

Definition listEventsHandler (event : ListRequest) : Prog ReadResult :=
  try_catch
    (let limit := match truthy_string (query_limit event) with
                  | Some s => parseInt10 s
                  | None => None
                  end in
     if limit_rejected limit
     then Return (readError 400 "INVALID_REQUEST" "Limit must be between 1 and 100")
     else
     await result <- listEvents {| params_category := query_category event;
                                   params_search := query_search event;
                                   params_status := query_status event;
                                   params_limit := limit;
                                   params_lastKey := query_lastKey event |};
     Return (readSuccess (ListData result)))
    (fun error => Return (readError 500 "INTERNAL_ERROR" "Failed to list events")).

Definition getEventHandler (pathParameters_id : option string) : Prog ReadResult :=
  try_catch
    (match truthy_string pathParameters_id with
     | None => Return (readError 400 "INVALID_REQUEST" "Event ID is required")
     | Some eventId =>
     await eventData <- getEvent eventId;
     match eventData with
     | None => Return (readError 404 "EVENT_NOT_FOUND" "Event not found")
     | Some eventData => Return (readSuccess (EventData eventData))
     end
     end)
    (fun error => Return (readError 500 "INTERNAL_ERROR" "Failed to get event")).

(** ** The seed script ([scripts/seed.ts])

    The list of events comes from [src/data/seedEvents] and is a parameter
    here.  Every event is put under its key; a rejected put is counted
    and the loop goes on. *)

Record SeedReport : Type := {
  successCount : Z;
  errorCount : Z;
  exitCode : Z;               (* process.exit *)
}.

Fixpoint seedLoop (events : list Event) (successCount errorCount : Z)
  : Prog (Z * Z) :=
  match events with
  | [] => Return (successCount, errorCount)
  | event :: rest =>
      await stored <- try_catch
        (await ignored <- send (PutItemCommand (EVENT_ (id event), METADATA)
                                               (EventRecord event));
         Return true)
        (fun error => Return false);
      if stored : bool
      then seedLoop rest (successCount + 1) errorCount
      else seedLoop rest successCount (errorCount + 1)
  end.

Definition seedEvents (events : list Event) : Prog SeedReport :=
  await counts <- seedLoop events 0 0;
  Return {| successCount := counts.1; errorCount := counts.2;
            exitCode := if counts.2 >? 0 then 1 else 0 |}.

(** ** Predicates on programs *)

(** Every command the program can come to send satisfies [P]. *)
Fixpoint AllSent {R : Type} (P : Command -> Prop) (p : Prog R) : Prop :=
  match p with
  | Send c k => P c /\ forall out, AllSent P (k out)
  | _ => True
  end.

(** Whatever the answers, the program returns a value in [Q] or throws an
    error in [T]. *)
Fixpoint Ends {R : Type} (Q : R -> Prop) (T : JsError -> Prop) (p : Prog R) : Prop :=
  match p with
  | Return r => Q r
  | Throw e => T e
  | Send c k => forall out, Ends Q T (k out)
  end.

(** Whatever the answers, the program sends at most [n] commands. *)
Fixpoint AtMost {R : Type} (n : nat) (p : Prog R) {struct p} : Prop :=
  match p with
  | Send c k =>
      match n with
      | O => False
      | S n' => forall out, AtMost n' (k out)
      end
  | _ => True
  end.

(** The keys a command may write. *)
Definition written (c : Command) : list Key :=
  match c with
  | PutItemCommand key _ => [key]
  | UpdateItemCommand input => [update_Key input]
  | _ => []
  end.

(** A command that leaves event records in place and does not lower
    [registered]. *)
Definition raising (c : Command) : Prop :=
  match c with
  | UpdateItemCommand input => currentRegistered input <= newRegistered input
  | PutItemCommand key _ => key.2 <> METADATA
  | _ => True
  end.

(** The responses of the register handler: the status and the error code
    go together. *)
Definition knownResponse (r : APIGatewayProxyResult) : Prop :=
  match body r with
  | RegisteredBody success _ _ _ => statusCode r = 200 /\ success = true
  | ErrorBody error _ =>
      (statusCode r = 400 /\
       error ∈ ["INVALID_REQUEST"; "INVALID_EMAIL"; "DUPLICATE_REGISTRATION";
                "EVENT_FULL"; "INSUFFICIENT_CAPACITY"]) \/
      (statusCode r = 404 /\ error = "EVENT_NOT_FOUND") \/
      (statusCode r = 500 /\ error = "INTERNAL_ERROR")
  end.

(** Under [METADATA] the table holds event records, keyed [EVENT#<id>]. *)
Definition eventKeyed (t : Table) : Prop :=
  forall pk item, t !! (pk, METADATA) = Some item ->
                  exists eventId e, pk = EVENT_ eventId /\ item = EventRecord e.

(** The responses given before the first command. *)
Definition earlyResponse (r : APIGatewayProxyResult) : Prop :=
  (statusCode r = 400 /\
   exists error message, body r = ErrorBody error message /\
                         error ∈ ["INVALID_REQUEST"; "INVALID_EMAIL"]) \/
  r = errorResponse 500 "INTERNAL_ERROR" "Failed to register for event".

(** The responses given once the table is involved. *)
Definition lateResponse (r : APIGatewayProxyResult) : Prop :=
  knownResponse r /\
  forall error message, body r = ErrorBody error message ->
                        error ∉ ["INVALID_REQUEST"; "INVALID_EMAIL"].

(** The responses of the two read handlers. *)
Definition listResponse (r : ReadResult) : Prop :=
  (exists result, r = readSuccess (ListData result)) \/
  r = readError 400 "INVALID_REQUEST" "Limit must be between 1 and 100" \/
  r = readError 500 "INTERNAL_ERROR" "Failed to list events".

Definition eventResponse (r : ReadResult) : Prop :=
  (exists event, r = readSuccess (EventData event)) \/
  r = readError 400 "INVALID_REQUEST" "Event ID is required" \/
  r = readError 404 "EVENT_NOT_FOUND" "Event not found" \/
  r = readError 500 "INTERNAL_ERROR" "Failed to get event".

(** The puts rejected among the first [n] commands. *)
Definition rejectedOf (n : nat) (faults : list (option JsError)) : Z :=
  Z.of_nat (length (List.filter (fun f : option JsError => bool_decide (is_Some f))
                                (take n faults))).

(** Every event record of [t0] under [METADATA] is still in [t], the same
    but for [registered], which is not lower. *)
Definition grown (t0 t : Table) : Prop :=
  forall pk e0, t0 !! (pk, METADATA) = Some (EventRecord e0) ->
    exists n, registered (capacity e0) <= n /\
              t !! (pk, METADATA) = Some (EventRecord (setRegistered n e0)).

(** ** Regular expressions: what a pattern denotes *)

Inductive Matches : Regex.t -> string -> Prop :=
| Matches_Eps : Matches Regex.Eps ""
| Matches_Class p c : p c = true -> Matches (Regex.Class p) (String c "")
| Matches_Cat r1 r2 s1 s2 :
    Matches r1 s1 -> Matches r2 s2 -> Matches (Regex.Cat r1 r2) (String.append s1 s2)
| Matches_Alt_l r1 r2 s : Matches r1 s -> Matches (Regex.Alt r1 r2) s
| Matches_Alt_r r1 r2 s : Matches r2 s -> Matches (Regex.Alt r1 r2) s
| Matches_Star_nil r : Matches (Regex.Star r) ""
| Matches_Star_app r s1 s2 :
    Matches r s1 -> Matches (Regex.Star r) s2 ->
    Matches (Regex.Star r) (String.append s1 s2).

(** Every character of the string is in the class. *)
Fixpoint allChars (p : ascii -> bool) (s : string) : bool :=
  match s with
  | EmptyString => true
  | String c rest => p c && allChars p rest
  end.

(** A non-empty run of characters other than white space and [@]. *)
Definition emailPart (s : string) : bool :=
  negb (String.eqb s "") && allChars notSpaceNorAt s.

(** * Properties *)

(** ** The embedding on concrete inputs *)

Example validateEmail_examples :
  validateEmail <$> [JString "user@example.com"; JString "a@b.c.d"; JString "not-an-email";
                     JString "a@b"; JString "a b@c.d"; JString "a@b@c.d";
                     JString "a@.c"; JString ""; JNumber 5; JNull]
  = [true; true; false; false; false; false; false; false; false; false].
Proof. reflexivity. Qed.

Example trim_examples :
  Js.trim "  John Doe  " = "John Doe" /\ Js.trim "   " = "" /\
  Js.replace "EVENT#12" "EVENT#" "" = "12" /\
  Js.includes (Js.toLowerCase "React Workshop") "react" = true.
Proof. repeat split. Qed.

(** Two requests race for the last place: the update of the first one
    lands, the update of the second one fails its guard. *)
Example lastPlaceRace_outcome :
  let sys := after_actions (lastPlaceRace ++ [Deliver 1; Deliver 0]%nat)%list
                           (oneEvent "1" 5 4) in
  table sys !! (EVENT_ "1", METADATA) = Some (EventRecord (sampleEvent "technology" 5 5)) /\
  statusCode <$> response sys 0 = Some 200 /\
  response sys 1 = Some insufficientCapacity /\
  (exists r, table sys !! (EVENT_ "1", REGISTRATION_ "reg_a") = Some (RegistrationRecord r)) /\
  table sys !! (EVENT_ "1", REGISTRATION_ "reg_b") = None.
Proof. repeat split; try (vm_compute; reflexivity). eexists. vm_compute. reflexivity. Qed.

(** ** Validation *)

Lemma validateEmail_truthy (s : string) :
  validateEmail (JString s) = true -> truthy (JString s) = true.
Proof. destruct s; [discriminate | reflexivity]. Qed.

Lemma registerEventHandler_wellFormed g event eventId attendeeEmail attendeeName groupSize :
  wellFormed event eventId attendeeEmail attendeeName groupSize ->
  registerEventHandler g event
  = afterValidation g eventId attendeeEmail attendeeName groupSize.
Proof.
  intros (Hid & Hne & Hbody & Htruthy & Hemail & Hname & Hsize).
  unfold registerEventHandler, afterValidation.
  rewrite Hid. simpl truthy_string.
  destruct (String.eqb_spec eventId "") as [->|_]; [done|].
  assert (Hn : truthy (JString attendeeName) = true).
  { destruct attendeeName; [done | reflexivity]. }
  assert (Hlen : (String.length (Js.trim attendeeName) =? 0)%nat = false).
  { destruct (Js.trim attendeeName); [done | reflexivity]. }
  assert (Hlt : (groupSize <? 1) = false) by lia.
  destruct Hbody as [[-> ->] | ->];
    rewrite Htruthy, Hn, Hemail; cbn [negb orb typeof asString asNumber
      Number_isInteger String.eqb Ascii.eqb Bool.eqb];
    rewrite Hlen; cbn [negb orb]; rewrite ?Hlt; reflexivity.
Qed.

(** Running one command with no fault pending. *)
Lemma run_Send {R : Type} (c : Command) (k : Settled (Output c) -> Prog R) (t : Table) :
  run (Send c k) [] t = run (k (perform c t).1) [] (perform c t).2.
Proof. simpl. destruct (perform c t); reflexivity. Qed.

Ltac run_step :=
  cbn [bind try_catch unmarshallEvent attributes];
  try rewrite run_Send; cbn [perform fst snd].

Lemma run_Return {R : Type} (r : R) (faults : list (option JsError)) (t : Table) :
  run (Return r) faults t = (inr r, t).
Proof. reflexivity. Qed.

(** What [checkDuplicateRegistration] returns, in terms of the query. *)
Lemma run_checkDuplicateRegistration eventId email t :
  run (checkDuplicateRegistration eventId email) [] t
  = (match query {| query_PK := EVENT_ eventId;
                    query_SK_begins_with := "REGISTRATION#";
                    query_FilterEmail := email;
                    query_Limit := 1 |} t with
     | inl e => inl e
     | inr items => inr (Z.of_nat (length items) >? 0)
     end, t).
Proof.
  unfold checkDuplicateRegistration, send. cbn [bind]. rewrite run_Send.
  cbn [perform fst snd]. destruct (query _ t); reflexivity.
Qed.

(** C7 (as amended).  A request that has an event id and both required
    fields, and whose [attendeeEmail] does not match the e-mail pattern, is
    answered with [INVALID_EMAIL]; the handler returns without sending any
    command, so the table is read and written by nobody on its behalf. *)
Theorem invalid_email_rejected_without_store_access
    g event eventId attendeeEmail attendeeName groupSize :
  pathParameters_id event = Some eventId -> eventId <> "" ->
  request_body event = Parsed attendeeEmail attendeeName groupSize ->
  truthy attendeeEmail = true -> truthy attendeeName = true ->
  validateEmail attendeeEmail = false ->
  let rejected :=
    errorResponse 400 "INVALID_EMAIL" "Please provide a valid email address" in
  registerEventHandler g event = Return rejected /\
  forall faults t,
    run (registerEventHandler g event) faults t = (inr rejected, t) /\
    sent (registerEventHandler g event) faults t = 0%nat.
Proof.
  intros Hid Hne Hbody He Hn Hv rejected.
  assert (Heq : registerEventHandler g event = Return rejected).
  { unfold registerEventHandler. rewrite Hid. simpl truthy_string.
    destruct (String.eqb_spec eventId "") as [->|_]; [done|].
    rewrite Hbody, He, Hn, Hv. reflexivity. }
  split; [exact Heq|]. intros faults t. rewrite Heq. split; reflexivity.
Qed.

Lemma invalid_email_rejected_without_store_access_witness :
  run (registerEventHandler (generated "1")
         (sampleRequest "1" "not-an-email" "John Doe" JUndefined))
      [] (oneEvent "1" 30 0)
  = (inr (errorResponse 400 "INVALID_EMAIL" "Please provide a valid email address"),
     oneEvent "1" 30 0).
Proof.
  apply (invalid_email_rejected_without_store_access (generated "1")
           (sampleRequest "1" "not-an-email" "John Doe" JUndefined)
           "1" (JString "not-an-email") (JString "John Doe") JUndefined);
    first [reflexivity | discriminate].
Defined.

(** C7 as stated fails: with [attendeeEmail = "not-an-email"] and no
    [attendeeName] the required-fields check comes first and the answer is
    [INVALID_REQUEST]. *)
Lemma invalid_email_without_name_counterexample :
  validateEmail (JString "not-an-email") = false /\
  run (registerEventHandler (generated "1")
         {| pathParameters_id := Some "1";
            request_body := Parsed (JString "not-an-email") JUndefined JUndefined |})
      [] (oneEvent "1" 30 0)
  = (inr (errorResponse 400 "INVALID_REQUEST"
            "Missing required fields: attendeeEmail, attendeeName"),
     oneEvent "1" 30 0) /\
  errorResponse 400 "INVALID_REQUEST"
    "Missing required fields: attendeeEmail, attendeeName"
  <> errorResponse 400 "INVALID_EMAIL" "Please provide a valid email address".
Proof. repeat split; first [reflexivity | discriminate]. Qed.

(** ** Order of the checks *)

(** C2 (as amended).  The fields of the request are validated before the
    event is looked up.  For a request whose fields pass validation, a
    missing event gives [EVENT_NOT_FOUND] and leaves the table as it is. *)
Theorem missing_event_after_validation g event eventId attendeeEmail attendeeName groupSize t :
  wellFormed event eventId attendeeEmail attendeeName groupSize ->
  t !! (EVENT_ eventId, METADATA) = None ->
  run (registerEventHandler g event) [] t
  = (inr (errorResponse 404 "EVENT_NOT_FOUND" "Event not found"), t).
Proof.
  intros Hwf Hnone.
  rewrite (registerEventHandler_wellFormed _ _ _ _ _ _ Hwf).
  unfold afterValidation, getEvent, send. cbn [bind try_catch].
  rewrite run_Send. cbn [perform fst snd]. rewrite Hnone. reflexivity.
Qed.

Lemma missing_event_after_validation_witness :
  run (registerEventHandler (generated "1")
         (sampleRequest "404" "user@example.com" "John Doe" (JNumber 2)))
      [] (oneEvent "1" 30 0)
  = (inr (errorResponse 404 "EVENT_NOT_FOUND" "Event not found"), oneEvent "1" 30 0).
Proof.
  apply (missing_event_after_validation _ _ "404" (JString "user@example.com")
           "John Doe" 2).
  - repeat split; first [reflexivity | discriminate | lia | right; reflexivity].
  - reflexivity.
Defined.

(** C2 as stated fails: for an event that does not exist and a malformed
    e-mail address the answer is [INVALID_EMAIL], not [EVENT_NOT_FOUND]. *)
Lemma missing_event_invalid_email_counterexample :
  oneEvent "1" 30 0 !! (EVENT_ "404", METADATA) = None /\
  run (registerEventHandler (generated "1")
         (sampleRequest "404" "not-an-email" "John Doe" JUndefined))
      [] (oneEvent "1" 30 0)
  = (inr (errorResponse 400 "INVALID_EMAIL" "Please provide a valid email address"),
     oneEvent "1" 30 0) /\
  errorResponse 400 "INVALID_EMAIL" "Please provide a valid email address"
  <> errorResponse 404 "EVENT_NOT_FOUND" "Event not found".
Proof. repeat split; first [reflexivity | discriminate]. Qed.

(** ** One request running alone *)

Lemma run_afterValidation g eventId attendeeEmail attendeeName groupSize e isDuplicate t :
  t !! (EVENT_ eventId, METADATA) = Some (EventRecord e) ->
  run (checkDuplicateRegistration eventId attendeeEmail) [] t = (inr isDuplicate, t) ->
  run (afterValidation g eventId attendeeEmail attendeeName groupSize) [] t
  = (inr (outcome g eventId attendeeEmail attendeeName groupSize e isDuplicate t).1,
     (outcome g eventId attendeeEmail attendeeName groupSize e isDuplicate t).2).
Proof.
  intros Hev Hdup. rewrite run_checkDuplicateRegistration in Hdup.
  unfold afterValidation, getEvent, checkDuplicateRegistration, send, outcome.
  run_step. rewrite Hev. run_step.
  destruct (query _ t) as [err|items]; [discriminate|].
  injection Hdup as Hdup. run_step. rewrite Hdup.
  destruct isDuplicate; [reflexivity|].
  destruct (registered (capacity e) >=? max (capacity e)); [reflexivity|].
  unfold registerForEvent, getEvent, send. run_step. rewrite Hev. run_step.
  destruct (registered (capacity e) + groupSize >? max (capacity e)); [reflexivity|].
  run_step. unfold update. cbn [update_Key currentRegistered newRegistered].
  rewrite Hev, Z.eqb_refl. run_step. reflexivity.
Qed.

Lemma run_Send_ok {R : Type} (c : Command) (k : Settled (Output c) -> Prog R)
    (faults : list (option JsError)) (t : Table) :
  run (Send c k) (None :: faults) t = run (k (perform c t).1) faults (perform c t).2.
Proof. simpl. destruct (perform c t); reflexivity. Qed.

Lemma run_Send_fault {R : Type} (c : Command) (k : Settled (Output c) -> Prog R)
    (e : JsError) (faults : list (option JsError)) (t : Table) :
  run (Send c k) (Some e :: faults) t = run (k (inl e)) faults t.
Proof. reflexivity. Qed.

(** C5.  A well-formed request that is not detected as a duplicate and asks
    for more places than are left is rejected, with [EVENT_FULL] when the
    event is already at its maximum and with [INSUFFICIENT_CAPACITY]
    otherwise, and the table is left as it was. *)
Theorem over_capacity_rejected_unchanged
    g event eventId attendeeEmail attendeeName groupSize e t :
  wellFormed event eventId attendeeEmail attendeeName groupSize ->
  t !! (EVENT_ eventId, METADATA) = Some (EventRecord e) ->
  run (checkDuplicateRegistration eventId attendeeEmail) [] t = (inr false, t) ->
  registered (capacity e) + groupSize > max (capacity e) ->
  run (registerEventHandler g event) [] t
  = (inr (if registered (capacity e) >=? max (capacity e)
          then errorResponse 400 "EVENT_FULL" "Event has reached maximum capacity"
          else errorResponse 400 "INSUFFICIENT_CAPACITY"
                 "Not enough spots available for group size"),
     t).
Proof.
  intros Hwf Hev Hdup Hcap.
  rewrite (registerEventHandler_wellFormed _ _ _ _ _ _ Hwf).
  rewrite (run_afterValidation _ _ _ _ _ _ _ _ Hev Hdup). unfold outcome.
  destruct (registered (capacity e) >=? max (capacity e)); [reflexivity|].
  replace (registered (capacity e) + groupSize >? max (capacity e)) with true by lia.
  reflexivity.
Qed.

Lemma over_capacity_rejected_unchanged_witness :
  run (registerEventHandler (generated "1")
         (sampleRequest "1" "user@example.com" "John Doe" (JNumber 3)))
      [] (oneEvent "1" 5 5)
  = (inr (errorResponse 400 "EVENT_FULL" "Event has reached maximum capacity"),
     oneEvent "1" 5 5)
  /\
  run (registerEventHandler (generated "1")
         (sampleRequest "1" "user@example.com" "John Doe" (JNumber 3)))
      [] (oneEvent "1" 10 8)
  = (inr (errorResponse 400 "INSUFFICIENT_CAPACITY"
            "Not enough spots available for group size"),
     oneEvent "1" 10 8).
Proof.
  split.
  - apply (over_capacity_rejected_unchanged (generated "1") _ "1"
             (JString "user@example.com") "John Doe" 3
             (sampleEvent "technology" 5 5) (oneEvent "1" 5 5)).
    + repeat split; first [reflexivity | discriminate | lia | right; reflexivity].
    + reflexivity.
    + reflexivity.
    + simpl. lia.
  - apply (over_capacity_rejected_unchanged (generated "1") _ "1"
             (JString "user@example.com") "John Doe" 3
             (sampleEvent "technology" 10 8) (oneEvent "1" 10 8)).
    + repeat split; first [reflexivity | discriminate | lia | right; reflexivity].
    + reflexivity.
    + reflexivity.
    + simpl. lia.
Defined.

(** C9.  When the conditional update of the capacity succeeds and the write
    of the registration record is rejected, nothing undoes the update: the
    table ends with [registered] increased by [groupSize] and with no
    registration record under the generated id. *)
Theorem failed_registration_write_keeps_increment
    g event eventId attendeeEmail attendeeName groupSize e t err :
  wellFormed event eventId attendeeEmail attendeeName groupSize ->
  t !! (EVENT_ eventId, METADATA) = Some (EventRecord e) ->
  run (checkDuplicateRegistration eventId attendeeEmail) [] t = (inr false, t) ->
  registered (capacity e) + groupSize <= max (capacity e) ->
  t !! (EVENT_ eventId, REGISTRATION_ (gen_registrationId g)) = None ->
  let '(result, t') :=
    run (registerEventHandler g event) [None; None; None; None; Some err] t in
  result = inr (if String.eqb (message err) "INSUFFICIENT_CAPACITY"
                then errorResponse 400 "INSUFFICIENT_CAPACITY"
                       "Not enough spots available for group size"
                else errorResponse 500 "INTERNAL_ERROR" "Failed to register for event")
  /\ t' = <[(EVENT_ eventId, METADATA) :=
             EventRecord (setRegistered (registered (capacity e) + groupSize) e)]> t
  /\ t' !! (EVENT_ eventId, METADATA)
     = Some (EventRecord (setRegistered (registered (capacity e) + groupSize) e))
  /\ t' !! (EVENT_ eventId, REGISTRATION_ (gen_registrationId g)) = None.
Proof.
  intros Hwf Hev Hdup Hcap Hfresh.
  pose proof Hwf as (_ & _ & _ & _ & _ & _ & Hsize).
  rewrite (registerEventHandler_wellFormed _ _ _ _ _ _ Hwf).
  rewrite run_checkDuplicateRegistration in Hdup.
  unfold afterValidation, getEvent, checkDuplicateRegistration, send.
  cbn [bind try_catch]. rewrite run_Send_ok. cbn [perform fst snd]. rewrite Hev.
  cbn [bind try_catch unmarshallEvent attributes]. rewrite run_Send_ok.
  cbn [perform fst snd].
  destruct (query _ t) as [?|items]; [discriminate|].
  injection Hdup as Hdup. cbn [bind try_catch]. rewrite Hdup.
  replace (registered (capacity e) >=? max (capacity e)) with false by lia.
  unfold registerForEvent, getEvent, send. cbn [bind try_catch].
  rewrite run_Send_ok. cbn [perform fst snd]. rewrite Hev.
  cbn [bind try_catch unmarshallEvent attributes].
  replace (registered (capacity e) + groupSize >? max (capacity e)) with false by lia.
  cbn [bind try_catch]. rewrite run_Send_ok. cbn [perform fst snd].
  unfold update. cbn [update_Key currentRegistered newRegistered].
  rewrite Hev, Z.eqb_refl. cbn [fst snd bind try_catch]. rewrite run_Send_fault.
  cbn [bind try_catch].
  assert (Hother : t !! (EVENT_ eventId, REGISTRATION_ (gen_registrationId g)) = None
                   -> (<[(EVENT_ eventId, METADATA) :=
                          EventRecord (setRegistered (registered (capacity e) + groupSize) e)]> t)
                      !! (EVENT_ eventId, REGISTRATION_ (gen_registrationId g)) = None).
  { intros H. rewrite lookup_insert_ne; [exact H|].
    unfold METADATA, REGISTRATION_. intros [=]. }
  destruct (String.eqb (message err) "INSUFFICIENT_CAPACITY");
    cbn [try_catch run]; (split; [reflexivity|]); (split; [reflexivity|]);
    (split; [apply lookup_insert_eq | auto]).
Qed.

Lemma failed_registration_write_keeps_increment_witness :
  let '(result, t') :=
    run (registerEventHandler (generated "1")
           (sampleRequest "1" "user@example.com" "John Doe" (JNumber 2)))
        [None; None; None; None; Some (Error "write failed")] (oneEvent "1" 30 0) in
  result = inr (errorResponse 500 "INTERNAL_ERROR" "Failed to register for event")
  /\ t' = <[(EVENT_ "1", METADATA) := EventRecord (sampleEvent "technology" 30 2)]>
            (oneEvent "1" 30 0)
  /\ t' !! (EVENT_ "1", METADATA) = Some (EventRecord (sampleEvent "technology" 30 2))
  /\ t' !! (EVENT_ "1", REGISTRATION_ "reg_1") = None.
Proof.
  apply (failed_registration_write_keeps_increment (generated "1")
           (sampleRequest "1" "user@example.com" "John Doe" (JNumber 2)) "1"
           (JString "user@example.com") "John Doe" 2
           (sampleEvent "technology" 30 0) (oneEvent "1" 30 0) (Error "write failed")).
  - repeat split; first [reflexivity | discriminate | lia | right; reflexivity].
  - reflexivity.
  - reflexivity.
  - simpl. lia.
  - reflexivity.
Defined.

(** ** Duplicate detection *)

Lemma filter_nil_intro {A : Type} (f : A -> bool) (l : list A) :
  (forall x, x ∈ l -> f x = false) -> List.filter f l = [].
Proof.
  induction l as [|a l IH]; intros H; [reflexivity|]. simpl.
  rewrite (H a) by left. apply IH. intros x Hx. apply H. by right.
Qed.

Lemma filter_singleton_intro {A : Type} (f : A -> bool) (l : list A) (x : A) :
  NoDup l -> x ∈ l -> f x = true ->
  (forall y, y ∈ l -> f y = true -> y = x) ->
  List.filter f l = [x].
Proof.
  induction l as [|a l IH]; intros Hnd Hx Hfx Huniq.
  - by apply elem_of_nil in Hx.
  - apply NoDup_cons in Hnd as [Ha Hnd]. simpl.
    destruct (f a) eqn:Hfa.
    + assert (a = x) as -> by (apply Huniq; [left | exact Hfa]).
      f_equal. apply filter_nil_intro. intros y Hy.
      destruct (f y) eqn:Hfy; [|reflexivity].
      assert (y = x) as -> by (apply Huniq; [by right | exact Hfy]). done.
    + apply IH; [exact Hnd | | exact Hfx |].
      * apply elem_of_cons in Hx as [->|Hx]; [congruence | exact Hx].
      * intros y Hy. apply Huniq. by right.
Qed.

(** An event without registration records has an empty registration range. *)
Lemma partition_range_noRegistrations t eventId :
  noRegistrations t eventId ->
  partition_range (EVENT_ eventId) "REGISTRATION#" t = [].
Proof.
  intros Hno. unfold partition_range. rewrite filter_nil_intro; [reflexivity|].
  intros [[pk sk] item] Hin. apply elem_of_map_to_list in Hin.
  unfold PK, SK. cbn [fst snd].
  destruct (String.eqb_spec pk (EVENT_ eventId)) as [->|]; [|reflexivity].
  destruct (String.prefix "REGISTRATION#" sk) eqn:Hp; [|reflexivity].
  rewrite (Hno sk Hp) in Hin. discriminate.
Qed.

(** After the first registration the range holds exactly its record. *)
Lemma partition_range_first_registration t eventId registrationId e' r :
  noRegistrations t eventId ->
  partition_range (EVENT_ eventId) "REGISTRATION#"
    (<[(EVENT_ eventId, REGISTRATION_ registrationId) := RegistrationRecord r]>
       (<[(EVENT_ eventId, METADATA) := EventRecord e']> t))
  = [((EVENT_ eventId, REGISTRATION_ registrationId), RegistrationRecord r)].
Proof.
  intros Hno. unfold partition_range.
  rewrite (filter_singleton_intro _ _
             ((EVENT_ eventId, REGISTRATION_ registrationId), RegistrationRecord r)).
  - reflexivity.
  - apply NoDup_map_to_list.
  - apply elem_of_map_to_list. apply lookup_insert_eq.
  - unfold PK, SK. cbn [fst snd]. rewrite String.eqb_refl.
    unfold REGISTRATION_. simpl. apply String.prefix_correct. by destruct registrationId.
  - intros [[pk sk] item] Hin Hf. apply elem_of_map_to_list in Hin.
    unfold PK, SK in Hf. cbn [fst snd] in Hf.
    apply andb_prop in Hf as [Hpk Hsk]. apply String.eqb_eq in Hpk as ->.
    destruct (decide ((EVENT_ eventId, REGISTRATION_ registrationId)
                      = (EVENT_ eventId, sk))) as [Heq|Hne].
    + rewrite <- Heq in Hin |- *. rewrite lookup_insert_eq in Hin. congruence.
    + rewrite lookup_insert_ne in Hin by exact Hne.
      destruct (decide ((EVENT_ eventId, METADATA) = (EVENT_ eventId, sk)))
        as [Heq'|Hne'].
      * injection Heq' as <-. discriminate.
      * rewrite lookup_insert_ne in Hin by exact Hne'.
        rewrite (Hno sk Hsk) in Hin. discriminate.
Qed.

Lemma outcome_accepted g eventId attendeeEmail attendeeName groupSize e t :
  1 <= groupSize -> registered (capacity e) + groupSize <= max (capacity e) ->
  outcome g eventId attendeeEmail attendeeName groupSize e false t
  = let e' := setRegistered (registered (capacity e) + groupSize) e in
    let attrs := {| attendeeEmail := attendeeEmail; attendeeName := attendeeName;
                    groupSize := groupSize; registeredAt := gen_registeredAt g |} in
    (successResponse
       (RegisteredBody true (gen_registrationId g)
          {| id := eventId; attributes := e' |}
          (attendee_of {| registrationId := gen_registrationId g;
                          registration_attributes := attrs |})),
     <[(EVENT_ eventId, REGISTRATION_ (gen_registrationId g)) := RegistrationRecord attrs]>
       (<[(EVENT_ eventId, METADATA) := EventRecord e']> t)).
Proof.
  intros Hsize Hcap. unfold outcome.
  replace (registered (capacity e) >=? max (capacity e)) with false by lia.
  replace (registered (capacity e) + groupSize >? max (capacity e)) with false by lia.
  reflexivity.
Qed.

Lemma checkDuplicateRegistration_noRegistrations t eventId email :
  noRegistrations t eventId ->
  run (checkDuplicateRegistration eventId email) [] t = (inr false, t).
Proof.
  intros Hno. rewrite run_checkDuplicateRegistration. unfold query.
  cbn [query_Limit query_PK query_SK_begins_with query_FilterEmail].
  rewrite (partition_range_noRegistrations _ _ Hno). reflexivity.
Qed.

(** On an event with one free place and no registration record, the first
    of two requests with the same e-mail address is accepted and the
    second is answered with [DUPLICATE_REGISTRATION]. *)
Lemma first_accepted_then_duplicate
    g1 g2 event1 event2 eventId attendeeEmail name1 name2 groupSize2 e t :
  wellFormed event1 eventId attendeeEmail name1 1 ->
  wellFormed event2 eventId attendeeEmail name2 groupSize2 ->
  t !! (EVENT_ eventId, METADATA) = Some (EventRecord e) ->
  max (capacity e) = 1 -> registered (capacity e) = 0 ->
  noRegistrations t eventId ->
  let '(first, t1) := run (registerEventHandler g1 event1) [] t in
  (exists registration,
     first = inr (successResponse
                    (RegisteredBody true (gen_registrationId g1)
                       {| id := eventId; attributes := setRegistered 1 e |}
                       registration))) /\
  run (registerEventHandler g2 event2) [] t1
  = (inr (errorResponse 400 "DUPLICATE_REGISTRATION"
            "This email is already registered for this event"), t1).
Proof.
  intros Hwf1 Hwf2 Hev Hmax Hreg Hno.
  rewrite (registerEventHandler_wellFormed _ _ _ _ _ _ Hwf1).
  rewrite (registerEventHandler_wellFormed _ _ _ _ _ _ Hwf2).
  rewrite (run_afterValidation _ _ _ _ _ _ _ _ Hev
             (checkDuplicateRegistration_noRegistrations _ _ _ Hno)).
  rewrite outcome_accepted by lia. cbn [fst snd]. rewrite Hreg. cbn [Z.add].
  split; [eexists; reflexivity|].
  match goal with |- run _ [] ?t1 = _ => set (t' := t1) end.
  assert (Hev' : t' !! (EVENT_ eventId, METADATA)
                 = Some (EventRecord (setRegistered 1 e))).
  { unfold t'. rewrite lookup_insert_ne by (unfold METADATA, REGISTRATION_; intros [=]).
    apply lookup_insert_eq. }
  assert (Hdup : run (checkDuplicateRegistration eventId attendeeEmail) [] t'
                 = (inr true, t')).
  { rewrite run_checkDuplicateRegistration. unfold query.
    cbn [query_Limit query_PK query_SK_begins_with query_FilterEmail].
    unfold t'. rewrite (partition_range_first_registration _ _ _ _ _ Hno).
    change (Z.to_nat 1) with 1%nat. unfold email_matches.
    simpl.
    rewrite bool_decide_eq_true_2 by reflexivity.
    reflexivity. }
  rewrite (run_afterValidation _ _ _ _ _ _ _ _ Hev' Hdup). reflexivity.
Qed.

(** C10.  The query of [checkDuplicateRegistration] carries [Limit: 1], so
    the e-mail filter sees only the first registration record of the event
    in sort-key order.  There is a table holding a registration of the
    attendee that is not the first record, on which the check returns
    [false] and a further request of the same attendee is accepted. *)
Theorem duplicate_check_examines_first_record_only :
  (forall eventId email t,
     run (checkDuplicateRegistration eventId email) [] t
     = (inr match partition_range (EVENT_ eventId) "REGISTRATION#" t with
            | first :: _ => email_matches email first
            | [] => false
            end, t)) /\
  exists t eventId email g event registration,
    t !! (EVENT_ eventId, REGISTRATION_ "reg_2")
      = Some (RegistrationRecord (sampleRegistration email "Second")) /\
    SK <$> partition_range (EVENT_ eventId) "REGISTRATION#" t
      = [REGISTRATION_ "reg_1"; REGISTRATION_ "reg_2"] /\
    wellFormed event eventId (JString email) "Second" 1 /\
    run (checkDuplicateRegistration eventId (JString email)) [] t = (inr false, t) /\
    (run (registerEventHandler g event) [] t).1
      = inr (successResponse
               (RegisteredBody true (gen_registrationId g)
                  {| id := eventId; attributes := sampleEvent "technology" 10 3 |}
                  registration)).
Proof.
  split.
  - intros eventId email t. rewrite run_checkDuplicateRegistration. unfold query.
    cbn [query_Limit query_PK query_SK_begins_with query_FilterEmail].
    change (Z.to_nat 1) with 1%nat.
    destruct (partition_range _ _ t) as [|first rest]; [reflexivity|].
    simpl. destruct (email_matches email first); reflexivity.
  - exists twoRegistrations, "1", "second@example.com", (generated "3"),
      (sampleRequest "1" "second@example.com" "Second" JUndefined).
    eexists. split; [reflexivity|]. split; [reflexivity|].
    split; [|split; vm_compute; reflexivity].
    repeat split; first [reflexivity | discriminate | lia | left; split; reflexivity].
Qed.

(** ** Listing events *)

(** The token returned by [listEvents] is the scan's [LastEvaluatedKey],
    whatever the number of events left in the buffer. *)
Lemma listEvents_result_lastKey params events LastEvaluatedKey :
  lastKey (listEvents_result params events LastEvaluatedKey) = LastEvaluatedKey.
Proof.
  unfold listEvents_result. cbn [lastKey].
  destruct LastEvaluatedKey; [|by destruct (_ || _)].
  rewrite orb_true_r. reflexivity.
Qed.

(** C3 fails on the code.  With three events in the table and [limit = 2]
    the scan evaluates the whole table and reports no further item; the
    buffer holds three events, two are returned, and no token is returned:
    the third event cannot be reached by a next page. *)
Theorem listEvents_no_token_for_buffered_events :
  exists out result,
    scan {| scan_FilterSK := METADATA; scan_Limit := 4; ExclusiveStartKey := None |}
         threeEvents = inr out /\
    length (Items out) = 3%nat /\ LastEvaluatedKey out = None /\
    run (listEvents (noFilter (Some 2))) [] threeEvents = (inr result, threeEvents) /\
    id <$> events result = ["3"; "1"] /\ total result = 2 /\
    lastKey result = None.
Proof. do 2 eexists. repeat split; vm_compute; reflexivity. Qed.

Lemma elem_of_filter_bool {A : Type} (f : A -> bool) (l : list A) (x : A) :
  x ∈ List.filter f l <-> x ∈ l /\ f x = true.
Proof. rewrite !list_elem_of_In. apply filter_In. Qed.

Lemma elem_of_slice0 {A : Type} (l : list A) (n : Z) (x : A) :
  x ∈ slice0 l n -> x ∈ l.
Proof. unfold slice0. destruct (n <? 0); apply subseteq_take. Qed.

(** What the filters of [listEvents] guarantee of every event they keep. *)
Lemma elem_of_listEvents_filter params events (e : Event) :
  e ∈ listEvents_filter params events ->
  (forall c, params_category params = Some c -> c <> "" ->
             cat_id (category e) = c) /\
  (params_status params = Some "available" ->
   registered (capacity e) < max (capacity e)).
Proof.
  unfold listEvents_filter. intros Hin.
  set (byCategory := match truthy_string (params_category params) with
                     | Some c => _ | None => events end) in Hin.
  set (bySearch := match truthy_string (params_search params) with
                   | Some s => _ | None => byCategory end) in Hin.
  assert (Hsub : e ∈ bySearch /\
                 (params_status params = Some "available" ->
                  registered (capacity e) < max (capacity e))).
  { destruct (params_status params) as [status|] eqn:Hst; cbn [truthy_string] in Hin.
    - destruct (String.eqb_spec status "") as [->|_]; [split; [done|discriminate]|].
      destruct (String.eqb_spec status "available") as [->|Hne].
      + apply elem_of_filter_bool in Hin as [Hin Hlt]. split; [done|]. lia.
      + split; [|congruence].
        destruct (String.eqb status "full"); [|done].
        by apply elem_of_filter_bool in Hin as [Hin _].
    - split; [done|discriminate]. }
  destruct Hsub as [Hin' Hstatus]. split; [|exact Hstatus].
  assert (Hcat : e ∈ byCategory).
  { unfold bySearch in Hin'. destruct (truthy_string (params_search params)); [|done].
    by apply elem_of_filter_bool in Hin' as [? _]. }
  intros c Hc Hne. unfold byCategory in Hcat. rewrite Hc in Hcat.
  cbn [truthy_string] in Hcat.
  destruct (String.eqb_spec c "") as [Heq|_]; [congruence|].
  apply elem_of_filter_bool in Hcat as [_ Heq]. by apply String.eqb_eq in Heq.
Qed.

(** Unmarshalling the scanned items sends no command. *)
Lemma mapM_unmarshallEvent (f : Item -> string) (items : list Item) :
  (exists events, mapM (fun item => unmarshallEvent (f item) item.2) items
                  = Return events) \/
  (exists e, mapM (fun item => unmarshallEvent (f item) item.2) items = Throw e).
Proof.
  induction items as [|[key [attrs|r]] items IH]; [left; by eexists | |].
  - destruct IH as [[events IH]|[e IH]]; [left|right]; eexists; simpl;
      rewrite IH; reflexivity.
  - right. eexists. reflexivity.
Qed.

(** Every result of [listEvents] is [listEvents_result] applied to a
    filtered buffer. *)
Lemma run_listEvents_inr params faults t result t' :
  run (listEvents params) faults t = (inr result, t') ->
  exists events LastEvaluatedKey,
    result = listEvents_result params (listEvents_filter params events)
                               LastEvaluatedKey.
Proof.
  unfold listEvents, send. cbn [bind]. intros Hrun.
  assert (Hk : forall (out : Settled ScanCommandOutput) faults' t1,
             run (await result <- match out with
                                  | inl e => Throw e
                                  | inr out => Return out
                                  end;
                  await events <- mapM (fun item =>
                      unmarshallEvent (Js.replace (PK item) "EVENT#" "") item.2)
                      (Items result);
                  Return (listEvents_result params (listEvents_filter params events)
                            (LastEvaluatedKey result))) faults' t1
             = (inr result, t') ->
             exists events LastEvaluatedKey,
               result = listEvents_result params (listEvents_filter params events)
                                          LastEvaluatedKey).
  { intros [e|out] faults' t1; cbn [bind]; [discriminate|].
    destruct (mapM_unmarshallEvent (fun item => Js.replace (PK item) "EVENT#" "")
                (Items out)) as [[events ->]|[e ->]]; cbn [bind run]; [|discriminate].
    intros [= <- _]. by do 2 eexists. }
  destruct faults as [|[e|] faults]; cbn [run] in Hrun.
  - destruct (perform _ t) as [out t1] eqn:Hp. exact (Hk out _ _ Hrun).
  - exact (Hk (inl e) _ _ Hrun).
  - destruct (perform _ t) as [out t1] eqn:Hp. exact (Hk out _ _ Hrun).
Qed.

Lemma elem_of_after (k : Key) (l : list Item) (x : Item) : x ∈ after k l -> x ∈ l.
Proof.
  induction l as [|it l IH]; cbn [after]; [done|].
  destruct (decide (it.1 = k)); intros Hx; right; auto.
Qed.

Lemma mapM_unmarshallEvent_typed (f : Item -> string) (items : list Item) :
  (forall item, item ∈ items -> exists e, item.2 = EventRecord e) ->
  exists events, mapM (fun item => unmarshallEvent (f item) item.2) items
                 = Return events.
Proof.
  induction items as [|item items IH]; intros Hall; [by eexists|].
  destruct (Hall item) as [e He]; [by left|].
  destruct IH as [events IH]; [intros; apply Hall; by right|].
  eexists. cbn [mapM]. rewrite He, IH. reflexivity.
Qed.

(** On a typed table, with a limit of at least 1 and no rejected command,
    [listEvents] returns a result and leaves the table as it is. *)
Lemma listEvents_returns params t :
  typed t -> 1 <= listEvents_limit params ->
  exists result, run (listEvents params) [] t = (inr result, t).
Proof.
  intros Htyped Hlimit. unfold listEvents, send. cbn [bind]. rewrite run_Send.
  cbn [perform fst snd]. unfold scan. cbn [scan_Limit scan_FilterSK ExclusiveStartKey].
  replace (listEvents_limit params * 2 <? 1) with false by lia. cbn [bind].
  match goal with
  | |- context [mapM ?g (Items ?out)] =>
      destruct (mapM_unmarshallEvent_typed
                  (fun item => Js.replace (PK item) "EVENT#" "") (Items out))
        as [events Hevents]
  end.
  - cbn [Items]. intros [[pk sk] item] Hin. cbn [snd].
    apply elem_of_filter_bool in Hin as [Hin Hsk].
    unfold SK in Hsk. cbn [fst snd] in Hsk. apply String.eqb_eq in Hsk as ->.
    apply subseteq_take in Hin.
    assert (Hall : ((pk, METADATA), item) ∈ map_to_list t).
    { unfold scan_order in Hin. destruct (params_lastKey params); [|done].
      by eapply elem_of_after. }
    apply elem_of_map_to_list in Hall. by eapply Htyped.
  - rewrite Hevents. cbn [bind run]. by eexists.
Qed.

(** C8.  Whatever [listEvents] returns: with the filter [category] set to
    a non-empty string, every returned event has that category id (for
    instance "technology"); with [status = "available"], every returned
    event has [registered < max]; and [total] is the number of events of
    the returned page. *)
Theorem listEvents_filters_and_total params faults t result t' :
  run (listEvents params) faults t = (inr result, t') ->
  (forall c, params_category params = Some c -> c <> "" ->
     forall e : Event, e ∈ events result -> cat_id (category e) = c) /\
  (params_status params = Some "available" ->
     forall e : Event, e ∈ events result ->
       registered (capacity e) < max (capacity e)) /\
  total result = Z.of_nat (length (events result)).
Proof.
  intros Hrun. apply run_listEvents_inr in Hrun as (buffer & lek & ->).
  unfold listEvents_result. cbn [events total].
  split; [|split; [|reflexivity]].
  - intros c Hc Hne e He. apply elem_of_slice0 in He.
    by apply (elem_of_listEvents_filter params buffer e He).
  - intros Hst e He. apply elem_of_slice0 in He.
    by apply (elem_of_listEvents_filter params buffer e He).
Qed.

Lemma listEvents_filters_and_total_witness :
  match run (listEvents {| params_category := Some "technology";
                           params_search := None;
                           params_status := Some "available";
                           params_limit := None;
                           params_lastKey := None |}) [] threeEvents with
  | (inr result, _) =>
      (forall e : Event, e ∈ events result -> cat_id (category e) = "technology") /\
      (forall e : Event, e ∈ events result ->
         registered (capacity e) < max (capacity e)) /\
      total result = Z.of_nat (length (events result))
  | (inl _, _) => False
  end.
Proof.
  destruct (run _ [] threeEvents) as [[err|result] t'] eqn:Hrun.
  - vm_compute in Hrun. discriminate.
  - destruct (listEvents_filters_and_total _ _ _ _ _ Hrun) as (Hc & Hs & Ht).
    split; [apply Hc; [reflexivity | discriminate] |].
    split; [apply Hs; reflexivity | exact Ht].
Defined.

(** ** Concurrent requests *)

Lemma Safe_try_catch {R : Type} M (p : Prog R) (h : JsError -> Prog R) :
  Safe M p -> (forall e, Safe M (h e)) -> Safe M (try_catch p h).
Proof.
  induction p as [r|e|c k IH]; cbn [try_catch Safe]; intros Hp Hh; [exact I | apply Hh |].
  destruct Hp as [Hc Hk]. split; [exact Hc|]. intros out Hout. apply IH; auto.
Qed.

Lemma registerForEvent_Safe M g eventId attendeeEmail attendeeName groupSize :
  Safe M (registerForEvent g eventId attendeeEmail attendeeName groupSize).
Proof.
  unfold registerForEvent, getEvent, send. cbn [bind Safe command_ok answer_ok].
  split; [exact I|]. intros [err|[[e|r]|]] Hget; cbn [bind unmarshallEvent Safe]; try exact I.
  specialize (Hget e eq_refl). cbn [attributes].
  destruct (registered (capacity e) + groupSize >? max (capacity e)) eqn:Hcap;
    [exact I|].
  cbn [bind try_catch Safe command_ok update_Key newRegistered]. split.
  { intros m Hm. rewrite Hget in Hm. injection Hm as <-. lia. }
  intros [err|item] _; cbn [bind try_catch].
  - destruct (String.eqb (name err) "ConditionalCheckFailedException"); exact I.
  - cbn [bind Safe command_ok]. split; [by eexists|].
    intros [err|[]] _; cbn [bind Safe]; [exact I|].
    destruct item; exact I.
Qed.

Lemma afterValidation_Safe M g eventId attendeeEmail attendeeName groupSize :
  Safe M (afterValidation g eventId attendeeEmail attendeeName groupSize).
Proof.
  unfold afterValidation. apply Safe_try_catch; [|intros; exact I].
  unfold getEvent, checkDuplicateRegistration, send.
  cbn [bind Safe command_ok answer_ok]. split; [exact I|].
  intros [err|[[e|r]|]] _; cbn [bind unmarshallEvent Safe command_ok]; try exact I.
  split; [exact I|]. intros [err|items] _; cbn [bind Safe]; [exact I|].
  destruct (Z.of_nat (length items) >? 0); [exact I|].
  destruct (_ >=? _); [exact I|].
  apply Safe_try_catch.
  - generalize (registerForEvent_Safe M g eventId attendeeEmail attendeeName groupSize).
    generalize (registerForEvent g eventId attendeeEmail attendeeName groupSize).
    induction p as [r|e'|c k IH]; cbn [bind Safe]; intros Hp; [exact I | exact I |].
    destruct Hp as [Hc Hk]. split; [exact Hc|]. intros out Hout. apply IH, Hk, Hout.
  - intros err. destruct (String.eqb (message err) "INSUFFICIENT_CAPACITY"); exact I.
Qed.

Lemma registerEventHandler_Safe M g event :
  Safe M (registerEventHandler g event).
Proof.
  unfold registerEventHandler.
  destruct (truthy_string (pathParameters_id event)) as [eventId|]; [|exact I].
  destruct (request_body event) as [| |attendeeEmail attendeeName groupSize];
    [exact I | exact I |].
  repeat match goal with
         | |- Safe _ (try_catch (if ?b then _ else _) _) => destruct b; [exact I|]
         end.
  apply afterValidation_Safe.
Qed.

Lemma frozen_refl t : frozen t t.
Proof. intros key e H. unfold maxOf. rewrite H. reflexivity. Qed.

(** A command that is [command_ok] keeps the table within capacity and
    frozen, and its answer is [answer_ok]. *)
Lemma perform_ok t0 c t :
  capacity_ok t -> frozen t0 t -> command_ok (maxOf t0) c ->
  capacity_ok (perform c t).2 /\ frozen t0 (perform c t).2 /\
  answer_ok (maxOf t0) c (perform c t).1.
Proof.
  intros Hcap Hfr Hc. destruct c as [input|key|key item|input|input];
    cbn [perform fst snd answer_ok]; try done.
  - (* GetItemCommand *)
    repeat split; [done | done |]. intros e [= He]. by apply Hfr.
  - (* PutItemCommand *)
    destruct Hc as [r ->]. split; [|split; [|done]].
    + apply map_Forall_insert_2; [reflexivity | exact Hcap].
    + intros key' e He. destruct (decide (key = key')) as [->|Hne].
      * rewrite lookup_insert_eq in He. discriminate.
      * rewrite lookup_insert_ne in He by exact Hne. by apply Hfr.
  - (* UpdateItemCommand *)
    unfold update. cbn [command_ok] in Hc.
    destruct (t !! update_Key input) as [[e|r]|] eqn:Hlook; [|done|done].
    destruct (registered (capacity e) =? currentRegistered input); [|done].
    cbn [fst snd]. pose proof (Hfr _ _ Hlook) as Hmax.
    split; [|split; [|done]].
    + apply map_Forall_insert_2; [|exact Hcap].
      cbn [capacity_ok_item setRegistered capacity registered max].
      apply Z.leb_le. apply Hc. exact Hmax.
    + intros key' e' He'. destruct (decide (update_Key input = key')) as [<-|Hne].
      * rewrite lookup_insert_eq in He'. injection He' as <-. exact Hmax.
      * rewrite lookup_insert_ne in He' by exact Hne. by apply Hfr.
Qed.

Lemma exec_invariant t0 a sys sys' :
  invariant t0 sys -> exec a sys = Some sys' -> invariant t0 sys'.
Proof.
  intros (Hcap & Hfr & Hsafe) Hexec. destruct a as [g event|i|i e]; cbn [exec] in Hexec.
  - injection Hexec as <-. cbn [table requests]. repeat split; [done | done |].
    apply Forall_app. split; [exact Hsafe|].
    apply Forall_singleton, registerEventHandler_Safe.
  - destruct (requests sys !! i) as [[r|e|c k]|] eqn:Hi; try discriminate.
    pose proof (Forall_lookup_1 _ _ _ _ Hsafe Hi) as [Hc Hk].
    destruct (perform_ok t0 c (table sys) Hcap Hfr Hc) as (Hcap' & Hfr' & Hans).
    destruct (perform c (table sys)) as [out t'].
    injection Hexec as <-. cbn [table requests fst snd] in *.
    repeat split; [done | done |]. apply Forall_insert; [exact Hsafe|]. by apply Hk.
  - destruct (requests sys !! i) as [[r|e'|c k]|] eqn:Hi; try discriminate.
    pose proof (Forall_lookup_1 _ _ _ _ Hsafe Hi) as [Hc Hk].
    injection Hexec as <-. cbn [table requests].
    repeat split; [done | done |]. apply Forall_insert; [exact Hsafe|]. apply Hk.
    destruct c; cbn [answer_ok]; try exact I. intros e' [=].
Qed.

Lemma execs_invariant t0 acts sys sys' :
  invariant t0 sys -> execs acts sys = Some sys' -> invariant t0 sys'.
Proof.
  revert sys. induction acts as [|a acts IH]; intros sys Hinv Hexecs; cbn [execs] in Hexecs.
  - by injection Hexecs as <-.
  - destruct (exec a sys) as [sys1|] eqn:Hexec; [|discriminate].
    eapply IH; [|exact Hexecs]. eapply exec_invariant; eauto.
Qed.

(** C1.  Started on a table in which every event has [registered <= max],
    every state reached by any interleaving of the commands of any number
    of register requests, with commands performed or rejected, has
    [registered <= max] for every event. *)
Theorem no_oversell t0 sys :
  capacity_ok t0 -> reachable t0 sys -> capacity_ok (table sys).
Proof.
  intros Hcap [acts Hexecs].
  assert (Hinit : invariant t0 (initial t0)).
  { repeat split; [exact Hcap | apply frozen_refl | apply Forall_nil_2]. }
  by destruct (execs_invariant _ _ _ _ Hinit Hexecs) as (? & _).
Qed.

Lemma no_oversell_witness :
  capacity_ok (table (after_actions (lastPlaceRace ++ [Deliver 1; Deliver 0]%nat)%list
                                    (oneEvent "1" 5 4))).
Proof.
  apply (no_oversell (oneEvent "1" 5 4)).
  - apply map_Forall_singleton. reflexivity.
  - exists (lastPlaceRace ++ [Deliver 1; Deliver 0]%nat)%list. vm_compute. reflexivity.
Defined.

Lemma afterValidation_FailFast g eventId attendeeEmail attendeeName groupSize :
  FailFast (afterValidation g eventId attendeeEmail attendeeName groupSize).
Proof.
  unfold afterValidation, getEvent, checkDuplicateRegistration, send.
  cbn [bind try_catch FailFast failsFast]. split; [exact I|].
  intros [err|[[e|r]|]]; cbn [bind try_catch unmarshallEvent FailFast failsFast];
    try exact I.
  split; [exact I|]. intros [err|items]; cbn [bind try_catch FailFast]; [exact I|].
  destruct (Z.of_nat (length items) >? 0); [exact I|].
  destruct (_ >=? _); [exact I|].
  unfold registerForEvent, getEvent, send.
  cbn [bind try_catch FailFast failsFast]. split; [exact I|].
  intros [err|[[e2|r2]|]]; cbn [bind try_catch unmarshallEvent FailFast failsFast].
  - destruct (String.eqb (message err) "INSUFFICIENT_CAPACITY"); exact I.
  - destruct (_ >? _); cbn [bind try_catch FailFast failsFast]; [exact I|].
    split.
    + intros err Hname. rewrite Hname. reflexivity.
    + intros [err|item]; cbn [bind try_catch].
      * destruct (String.eqb (name err) "ConditionalCheckFailedException");
          cbn [bind try_catch]; [exact I|].
        destruct (String.eqb (message err) "INSUFFICIENT_CAPACITY"); exact I.
      * cbn [FailFast failsFast]. split; [exact I|].
        intros [err|[]]; cbn [bind try_catch].
        -- destruct (String.eqb (message err) "INSUFFICIENT_CAPACITY"); exact I.
        -- destruct item; exact I.
  - exact I.
  - exact I.
Qed.

Lemma registerEventHandler_FailFast g event :
  FailFast (registerEventHandler g event).
Proof.
  unfold registerEventHandler.
  destruct (truthy_string (pathParameters_id event)) as [eventId|]; [|exact I].
  destruct (request_body event) as [| |attendeeEmail attendeeName groupSize];
    [exact I | exact I |].
  repeat match goal with
         | |- FailFast (try_catch (if ?b then _ else _) _) => destruct b; [exact I|]
         end.
  apply afterValidation_FailFast.
Qed.

Lemma exec_FailFast a sys sys' :
  Forall FailFast (requests sys) -> exec a sys = Some sys' ->
  Forall FailFast (requests sys').
Proof.
  intros Hall Hexec. destruct a as [g event|i|i e]; cbn [exec] in Hexec.
  - injection Hexec as <-. cbn [requests]. apply Forall_app. split; [exact Hall|].
    apply Forall_singleton, registerEventHandler_FailFast.
  - destruct (requests sys !! i) as [[r|e|c k]|] eqn:Hi; try discriminate.
    pose proof (Forall_lookup_1 _ _ _ _ Hall Hi) as [_ Hk].
    destruct (perform c (table sys)) as [out t'].
    injection Hexec as <-. cbn [requests]. apply Forall_insert; [exact Hall | apply Hk].
  - destruct (requests sys !! i) as [[r|e'|c k]|] eqn:Hi; try discriminate.
    pose proof (Forall_lookup_1 _ _ _ _ Hall Hi) as [_ Hk].
    injection Hexec as <-. cbn [requests]. apply Forall_insert; [exact Hall | apply Hk].
Qed.

Lemma reachable_FailFast t0 sys :
  reachable t0 sys -> Forall FailFast (requests sys).
Proof.
  intros [acts Hexecs].
  assert (Hinit : Forall FailFast (requests (initial t0))) by apply Forall_nil_2.
  revert Hinit Hexecs. generalize (initial t0). clear t0.
  induction acts as [|a acts IH]; intros sys0 Hall Hexecs; cbn [execs] in Hexecs.
  - by injection Hexecs as <-.
  - destruct (exec a sys0) as [sys1|] eqn:Hexec; [|discriminate].
    eapply IH; [|exact Hexecs]. eapply exec_FailFast; eauto.
Qed.

(** A request that has returned stays as it is. *)
Lemma execs_returned acts sys sys' i r :
  requests sys !! i = Some (Return r) -> execs acts sys = Some sys' ->
  requests sys' !! i = Some (Return r).
Proof.
  revert sys. induction acts as [|a acts IH]; intros sys Hi Hexecs; cbn [execs] in Hexecs.
  - by injection Hexecs as <-.
  - destruct (exec a sys) as [sys1|] eqn:Hexec; [|discriminate].
    apply (IH sys1); [|exact Hexecs]. clear IH Hexecs.
    destruct a as [g event|j|j e]; cbn [exec] in Hexec.
    + injection Hexec as <-. cbn [requests]. by apply lookup_app_l_Some.
    + destruct (requests sys !! j) as [[r'|e|c k]|] eqn:Hj; try discriminate.
      destruct (perform c (table sys)) as [out t'].
      injection Hexec as <-. cbn [requests].
      rewrite list_lookup_insert_ne; [exact Hi | congruence].
    + destruct (requests sys !! j) as [[r'|e'|c k]|] eqn:Hj; try discriminate.
      injection Hexec as <-. cbn [requests].
      rewrite list_lookup_insert_ne; [exact Hi | congruence].
Qed.

(** C6.  In any reachable state, when the conditional update that request
    [i] is about to send fails its guard, the step leaves the table as it
    is and the request has returned [INSUFFICIENT_CAPACITY]: it has no
    command left to send, neither a read nor an update, and stays returned
    whatever happens next. *)
Theorem failed_conditional_update_is_terminal t0 sys i input k :
  reachable t0 sys ->
  requests sys !! i = Some (Send (UpdateItemCommand input) k) ->
  (update input (table sys)).1 = inl ConditionalCheckFailedException ->
  exists sys',
    exec (Deliver i) sys = Some sys' /\
    table sys' = table sys /\
    requests sys' = <[i := Return insufficientCapacity]> (requests sys) /\
    response sys' i = Some insufficientCapacity /\
    forall acts sys'', execs acts sys' = Some sys'' ->
                       response sys'' i = Some insufficientCapacity.
Proof.
  intros Hreach Hi Hfail.
  pose proof (Forall_lookup_1 _ _ _ _ (reachable_FailFast _ _ Hreach) Hi) as [Hff _].
  cbn [failsFast] in Hff. specialize (Hff ConditionalCheckFailedException eq_refl).
  assert (Htable : (update input (table sys)).2 = table sys).
  { unfold update in *. destruct (table sys !! update_Key input) as [[e|r]|]; try done.
    destruct (_ =? _); [discriminate | done]. }
  assert (Hlt : (i < length (requests sys))%nat) by (eapply lookup_lt_Some; eauto).
  exists {| table := table sys;
            requests := <[i := Return insufficientCapacity]> (requests sys) |}.
  split.
  { cbn [exec]. rewrite Hi. cbn [perform].
    destruct (update input (table sys)) as [out t'] eqn:Hup. cbn [fst snd] in *.
    subst out t'. do 3 f_equal. exact Hff. }
  cbn [table requests]. split; [reflexivity|]. split; [reflexivity|].
  assert (Hret : <[i := Return insufficientCapacity]> (requests sys) !! i
                 = Some (Return insufficientCapacity))
    by (by apply list_lookup_insert_eq).
  split.
  - unfold response. cbn [requests]. by rewrite Hret.
  - intros acts sys'' Hexecs. unfold response.
    by rewrite (execs_returned acts
                  {| table := table sys;
                     requests := <[i := Return insufficientCapacity]> (requests sys) |}
                  sys'' i insufficientCapacity Hret Hexecs).
Qed.

Lemma failed_conditional_update_is_terminal_witness :
  exists sys',
    exec (Deliver 1) (after_actions lastPlaceRace (oneEvent "1" 5 4)) = Some sys' /\
    table sys' = table (after_actions lastPlaceRace (oneEvent "1" 5 4)) /\
    requests sys' = <[1%nat := Return insufficientCapacity]>
                      (requests (after_actions lastPlaceRace (oneEvent "1" 5 4))) /\
    response sys' 1 = Some insufficientCapacity /\
    forall acts sys'', execs acts sys' = Some sys'' ->
                       response sys'' 1 = Some insufficientCapacity.
Proof.
  eapply (failed_conditional_update_is_terminal (oneEvent "1" 5 4)
            (after_actions lastPlaceRace (oneEvent "1" 5 4)) 1%nat).
  - exists lastPlaceRace. vm_compute. reflexivity.
  - vm_compute. reflexivity.
  - vm_compute. reflexivity.
Defined.

(** ** Registration records are covered by the counter *)

Lemma seeded_booked t : seeded t -> booked t.
Proof.
  intros Hseed. split.
  - intros key e He. apply Hseed in He. cbn [seeded_item] in He.
    apply andb_prop in He as [_ He]. lia.
  - intros pk e _ _ sk Hsk. destruct (t !! (pk, sk)) as [item|] eqn:Hitem; [|done].
    apply Hseed in Hitem. destruct item as [e'|r]; [|discriminate].
    cbn [seeded_item snd] in Hitem. apply andb_prop in Hitem as [Hmeta _].
    apply String.eqb_eq in Hmeta as ->. discriminate.
Qed.

Lemma Paid_bind {A B : Type} paid (p : Prog A) (f : A -> Prog B) :
  Paid paid p -> (forall paid' a, Paid paid' (f a)) -> Paid paid (bind p f).
Proof.
  revert paid. induction p as [a|e|c k IH]; cbn [bind Paid]; intros paid Hp Hf;
    [apply Hf | exact I |].
  destruct Hp as [Hc Hk]. split; [exact Hc|]. intros out Hout. apply IH; auto.
Qed.

Lemma Paid_try_catch {R : Type} paid (p : Prog R) (h : JsError -> Prog R) :
  Paid paid p -> (forall paid' e, Paid paid' (h e)) -> Paid paid (try_catch p h).
Proof.
  revert paid. induction p as [r|e|c k IH]; cbn [try_catch Paid]; intros paid Hp Hh;
    [exact I | apply Hh |].
  destruct Hp as [Hc Hk]. split; [exact Hc|]. intros out Hout. apply IH; auto.
Qed.

Lemma registerForEvent_Paid paid g eventId attendeeEmail attendeeName groupSize :
  1 <= groupSize ->
  Paid paid (registerForEvent g eventId attendeeEmail attendeeName groupSize).
Proof.
  intros Hsize. unfold registerForEvent, getEvent, send.
  cbn [bind Paid paid_command paid_answer paid_after].
  split; [exact I|].
  intros [err|[[e|r]|]] Hget; cbn [bind unmarshallEvent Paid]; try exact I.
  specialize (Hget e eq_refl). cbn [attributes].
  destruct (registered (capacity e) + groupSize >? max (capacity e)); [exact I|].
  cbn [bind try_catch Paid paid_command paid_after update_Key newRegistered snd].
  split; [split; [reflexivity | lia]|].
  intros [err|item] _; cbn [bind try_catch].
  - destruct (String.eqb (name err) "ConditionalCheckFailedException"); exact I.
  - cbn [bind Paid paid_command paid_after fst snd]. split.
    + split; [by eexists|]. split; [by left | discriminate].
    + intros [err|[]] _; cbn [bind Paid]; [exact I|]. destruct item; exact I.
Qed.

Lemma afterValidation_Paid paid g eventId attendeeEmail attendeeName groupSize :
  1 <= groupSize ->
  Paid paid (afterValidation g eventId attendeeEmail attendeeName groupSize).
Proof.
  intros Hsize. unfold afterValidation.
  apply Paid_try_catch; [|intros; exact I].
  unfold getEvent, checkDuplicateRegistration, send.
  cbn [bind Paid paid_command paid_answer paid_after]. split; [exact I|].
  intros [err|[[e|r]|]] _; cbn [bind unmarshallEvent Paid paid_command paid_after];
    try exact I.
  split; [exact I|]. intros [err|items] _; cbn [bind Paid]; [exact I|].
  destruct (Z.of_nat (length items) >? 0); [exact I|].
  destruct (_ >=? _); [exact I|].
  apply Paid_try_catch.
  - apply Paid_bind; [by apply registerForEvent_Paid | intros; exact I].
  - intros paid' err.
    destruct (String.eqb (message err) "INSUFFICIENT_CAPACITY"); exact I.
Qed.

Lemma registerEventHandler_Paid g event : Paid [] (registerEventHandler g event).
Proof.
  unfold registerEventHandler.
  destruct (truthy_string (pathParameters_id event)) as [eventId|]; [|exact I].
  destruct (request_body event) as [| |attendeeEmail attendeeName groupSize];
    [exact I | exact I |].
  do 3 (match goal with
        | |- Paid _ (try_catch (if ?b then _ else _) _) => destruct b; [exact I|]
        end).
  match goal with
  | |- Paid _ (try_catch (if ?b then _ else _) _) => destruct b eqn:Hsize; [exact I|]
  end.
  apply afterValidation_Paid.
  apply orb_false_elim in Hsize as [Hsize _].
  apply orb_false_elim in Hsize as [_ Hsize]. lia.
Qed.

Lemma METADATA_not_registration sk :
  String.prefix "REGISTRATION#" sk = true -> sk <> METADATA.
Proof. intros Hsk ->. discriminate. Qed.

(** A paid command keeps the table booked, keeps what every request
    knows, and extends what its own request knows. *)
Lemma perform_booked paid c t :
  booked t -> known t paid -> paid_command paid c ->
  booked (perform c t).2 /\
  paid_answer c (perform c t).1 /\
  known (perform c t).2 (paid_after paid c (perform c t).1) /\
  (forall paid', known t paid' -> known (perform c t).2 paid').
Proof.
  intros [Hnonneg Hzero] Hknown Hc.
  destruct c as [input|key|key item|input|input];
    cbn [perform fst snd paid_answer paid_after]; try done.
  - (* GetItemCommand *)
    repeat split; try done. intros e [= He]. by eapply Hnonneg.
  - (* PutItemCommand *)
    destruct Hc as ([r ->] & Hpaid & Hsk). destruct key as [pk0 sk0].
    cbn [fst snd] in Hpaid, Hsk.
    assert (Hevents : forall key e,
               <[(pk0, sk0) := RegistrationRecord r]> t !! key = Some (EventRecord e) ->
               t !! key = Some (EventRecord e)).
    { intros key e He. destruct (decide ((pk0, sk0) = key)) as [<-|Hne].
      - rewrite lookup_insert_eq in He. discriminate.
      - by rewrite lookup_insert_ne in He. }
    assert (Hkeep : forall paid', known t paid' ->
               known (<[(pk0, sk0) := RegistrationRecord r]> t) paid').
    { intros paid' Hk pk Hpk e He. apply Hevents in He. by eapply Hk. }
    repeat split; try done; [| |by apply Hkeep].
    + intros key e He. apply Hevents in He. by eapply Hnonneg.
    + intros pk e He Hreg sk Hsk'. apply Hevents in He.
      destruct (decide (pk0 = pk)) as [->|Hne].
      * specialize (Hknown pk Hpaid e He). lia.
      * rewrite lookup_insert_ne by congruence. by eapply Hzero.
  - (* UpdateItemCommand *)
    destruct Hc as [Hmeta Hnew]. unfold update.
    destruct (update_Key input) as [pk0 sk0] eqn:Hkey. cbn [snd] in Hmeta. subst sk0.
    destruct (t !! (pk0, METADATA)) as [[e0|r]|] eqn:Hlook; cbn [fst snd]; try done.
    destruct (registered (capacity e0) =? currentRegistered input); cbn [fst snd];
      [|done].
    set (e1 := setRegistered (newRegistered input) e0).
    assert (Hevents : forall key e,
               <[(pk0, METADATA) := EventRecord e1]> t !! key = Some (EventRecord e) ->
               1 <= registered (capacity e) /\ key = (pk0, METADATA) \/
               t !! key = Some (EventRecord e) /\ key <> (pk0, METADATA)).
    { intros key e He. destruct (decide ((pk0, METADATA) = key)) as [<-|Hne].
      - rewrite lookup_insert_eq in He. injection He as <-. by left.
      - rewrite lookup_insert_ne in He by done. right. split; [done | congruence]. }
    assert (Hkeep : forall paid', known t paid' ->
               known (<[(pk0, METADATA) := EventRecord e1]> t) paid').
    { intros paid' Hk pk Hpk e He.
      apply Hevents in He as [[Hone _]|[He _]]; [done | by eapply Hk]. }
    repeat split; try done.
    + intros key e He. apply Hevents in He as [[Hone _]|[He _]]; [lia | by eapply Hnonneg].
    + intros pk e He Hreg sk Hsk.
      apply Hevents in He as [[Hone _]|[He Hne]]; [lia|].
      rewrite lookup_insert_ne.
      * by eapply Hzero.
      * intros [= _ Heq]. by apply (METADATA_not_registration sk).
    + intros pk Hpk e He. cbn [fst] in Hpk.
      apply Hevents in He as [[Hone _]|[He Hne]]; [done|].
      apply elem_of_cons in Hpk as [->|Hpk]; [done | by eapply Hknown].
Qed.

Lemma exec_booked_invariant a sys sys' :
  booked_invariant sys -> exec a sys = Some sys' -> booked_invariant sys'.
Proof.
  intros [Hbooked Hall] Hexec. destruct a as [g event|i|i e]; cbn [exec] in Hexec.
  - injection Hexec as <-. split; [exact Hbooked|]. cbn [table requests].
    apply Forall_app. split; [exact Hall|]. apply Forall_singleton.
    exists []. split; [|apply registerEventHandler_Paid].
    intros pk Hpk. by apply elem_of_nil in Hpk.
  - destruct (requests sys !! i) as [[r|e|c k]|] eqn:Hi; try discriminate.
    destruct (Forall_lookup_1 _ _ _ _ Hall Hi) as (paid & Hknown & Hc & Hk).
    destruct (perform_booked paid c (table sys) Hbooked Hknown Hc)
      as (Hbooked' & Hans & Hknown' & Hkeep).
    destruct (perform c (table sys)) as [out t'].
    injection Hexec as <-. cbn [table requests fst snd] in *.
    split; [exact Hbooked'|]. apply Forall_insert.
    + eapply Forall_impl; [exact Hall|]. intros p (paid' & Hk' & Hp'). eauto.
    + eauto.
  - destruct (requests sys !! i) as [[r|e'|c k]|] eqn:Hi; try discriminate.
    destruct (Forall_lookup_1 _ _ _ _ Hall Hi) as (paid & Hknown & Hc & Hk).
    injection Hexec as <-. cbn [table requests].
    split; [exact Hbooked|]. apply Forall_insert; [exact Hall|].
    exists paid. split; [exact Hknown|].
    assert (Hans : paid_answer c (inl e)) by (destruct c; cbn; try done; intros ? [=]).
    specialize (Hk _ Hans). by destruct c.
Qed.

(** In every state the system reaches from a seeded table, [registered] is
    not negative and an event with [registered = 0] has no registration
    record. *)
Lemma reachable_booked t0 sys : seeded t0 -> reachable t0 sys -> booked (table sys).
Proof.
  intros Hseed [acts Hexecs].
  assert (Hinit : booked_invariant (initial t0)).
  { split; [by apply seeded_booked | apply Forall_nil_2]. }
  revert Hinit Hexecs. generalize (initial t0).
  induction acts as [|a acts IH]; intros sys0 Hinv Hexecs; cbn [execs] in Hexecs.
  - injection Hexecs as <-. apply Hinv.
  - destruct (exec a sys0) as [sys1|] eqn:Hexec; [|discriminate].
    eapply IH; [|exact Hexecs]. eapply exec_booked_invariant; eauto.
Qed.

(** C4.  In any state the system reaches from a seeded table, for an event
    with [max = 1] and [registered = 0], two well-formed requests with the
    same e-mail address run one after the other, the first of them for
    one place: the first is accepted, and the second is answered with
    [DUPLICATE_REGISTRATION] on the table the first one left. *)
Theorem sequential_duplicate_rejected
    t0 sys g1 g2 event1 event2 eventId attendeeEmail name1 name2 groupSize2 e :
  seeded t0 -> reachable t0 sys ->
  wellFormed event1 eventId attendeeEmail name1 1 ->
  wellFormed event2 eventId attendeeEmail name2 groupSize2 ->
  table sys !! (EVENT_ eventId, METADATA) = Some (EventRecord e) ->
  max (capacity e) = 1 -> registered (capacity e) = 0 ->
  let '(first, t1) := run (registerEventHandler g1 event1) [] (table sys) in
  (exists registration,
     first = inr (successResponse
                    (RegisteredBody true (gen_registrationId g1)
                       {| id := eventId; attributes := setRegistered 1 e |}
                       registration))) /\
  run (registerEventHandler g2 event2) [] t1
  = (inr (errorResponse 400 "DUPLICATE_REGISTRATION"
            "This email is already registered for this event"), t1).
Proof.
  intros Hseed Hreach Hwf1 Hwf2 Hev Hmax Hreg.
  apply (first_accepted_then_duplicate g1 g2 event1 event2 eventId attendeeEmail
           name1 name2 groupSize2 e (table sys)); try assumption.
  intros sk Hsk.
  destruct (reachable_booked _ _ Hseed Hreach) as [_ Hzero]. by eapply Hzero.
Qed.

Lemma sequential_duplicate_rejected_witness :
  let '(first, t1) :=
    run (registerEventHandler (generated "1")
           (sampleRequest "1" "user@example.com" "John Doe" JUndefined))
        [] (table (initial (oneEvent "1" 1 0))) in
  (exists registration,
     first = inr (successResponse
                    (RegisteredBody true "reg_1"
                       {| id := "1"; attributes := sampleEvent "technology" 1 1 |}
                       registration))) /\
  run (registerEventHandler (generated "2")
         (sampleRequest "1" "user@example.com" "J. Doe" (JNumber 1))) [] t1
  = (inr (errorResponse 400 "DUPLICATE_REGISTRATION"
            "This email is already registered for this event"), t1).
Proof.
  apply (sequential_duplicate_rejected (oneEvent "1" 1 0) (initial (oneEvent "1" 1 0))
           (generated "1") (generated "2")
           (sampleRequest "1" "user@example.com" "John Doe" JUndefined)
           (sampleRequest "1" "user@example.com" "J. Doe" (JNumber 1))
           "1" (JString "user@example.com") "John Doe" "J. Doe" 1
           (sampleEvent "technology" 1 0)).
  - apply map_Forall_singleton. reflexivity.
  - exists []. reflexivity.
  - repeat split; first [reflexivity | discriminate | lia | left; split; reflexivity].
  - repeat split; first [reflexivity | discriminate | lia | right; reflexivity].
  - reflexivity.
  - reflexivity.
  - reflexivity.
Defined.

(** * Further properties *)

(** ** The e-mail pattern *)

Lemma append_empty_inv (s1 s2 : string) :
  String.append s1 s2 = "" -> s1 = "" /\ s2 = "".
Proof. destruct s1; [intros H; split; [reflexivity | exact H] | discriminate]. Qed.

Lemma append_nil_l (s : string) : String.append "" s = s.
Proof. reflexivity. Qed.

Lemma append_cons (c : ascii) (s1 s2 : string) :
  String.append (String c s1) s2 = String c (String.append s1 s2).
Proof. reflexivity. Qed.

Lemma Matches_nullable r : Regex.nullable r = true <-> Matches r "".
Proof.
  split.
  - induction r as [| |p|r1 IH1 r2 IH2|r1 IH1 r2 IH2|r IH]; cbn [Regex.nullable];
      intros Hn; try discriminate.
    + constructor.
    + apply andb_prop in Hn as [H1 H2].
      change "" with (String.append "" ""). constructor; auto.
    + apply orb_prop in Hn as [H|H]; [apply Matches_Alt_l | apply Matches_Alt_r]; auto.
    + constructor.
  - intros H. remember "" as s eqn:Es. induction H; cbn [Regex.nullable]; try done.
    + apply append_empty_inv in Es as [-> ->]. by rewrite IHMatches1, IHMatches2.
    + by rewrite IHMatches.
    + rewrite IHMatches by done. apply orb_true_r.
Qed.

Lemma Matches_deriv_1 c r s : Matches (Regex.deriv c r) s -> Matches r (String c s).
Proof.
  revert s. induction r as [| |p|r1 IH1 r2 IH2|r1 IH1 r2 IH2|r IH];
    cbn [Regex.deriv]; intros s H.
  - inversion H.
  - inversion H.
  - destruct (p c) eqn:Hp; inversion H; subst. by constructor.
  - assert (Hcat : forall s', Matches (Regex.Cat (Regex.deriv c r1) r2) s' ->
                              Matches (Regex.Cat r1 r2) (String c s')).
    { intros s' H'. inversion H'; subst.
      change (String c (String.append s1 s2)) with (String.append (String c s1) s2).
      constructor; auto. }
    destruct (Regex.nullable r1) eqn:Hn; [|by apply Hcat].
    inversion H; subst; [by apply Hcat|].
    change (String c s) with (String.append "" (String c s)).
    constructor; [by apply Matches_nullable | auto].
  - inversion H; subst; [apply Matches_Alt_l | apply Matches_Alt_r]; auto.
  - inversion H; subst.
    change (String c (String.append s1 s2)) with (String.append (String c s1) s2).
    constructor; auto.
Qed.

Lemma Matches_deriv_2 c r s : Matches r (String c s) -> Matches (Regex.deriv c r) s.
Proof.
  intros H. remember (String c s) as cs eqn:E. revert c s E.
  induction H as [|p c' Hp|r1 r2 s1 s2 H1 IH1 H2 IH2|r1 r2 s' H IH|r1 r2 s' H IH
                 |r|r s1 s2 H1 IH1 H2 IH2]; intros c s E; cbn [Regex.deriv].
  - discriminate.
  - injection E as -> <-. rewrite Hp. constructor.
  - destruct s1 as [|c1 s1].
    + rewrite append_nil_l in E. subst s2. apply Matches_nullable in H1. rewrite H1.
      apply Matches_Alt_r. by apply IH2.
    + rewrite append_cons in E. injection E as -> <-.
      assert (Matches (Regex.Cat (Regex.deriv c r1) r2) (String.append s1 s2))
        by (constructor; auto).
      destruct (Regex.nullable r1); [by apply Matches_Alt_l | done].
  - apply Matches_Alt_l. by apply IH.
  - apply Matches_Alt_r. by apply IH.
  - discriminate.
  - destruct s1 as [|c1 s1].
    + rewrite append_nil_l in E. by apply IH2.
    + rewrite append_cons in E. injection E as -> <-. constructor; auto.
Qed.

(** The matcher decides the denotation of the pattern. *)
Lemma test_Matches r s : Regex.test r s = true <-> Matches r s.
Proof.
  revert r. induction s as [|c s IH]; intros r; cbn [Regex.test].
  - apply Matches_nullable.
  - rewrite IH. split; [apply Matches_deriv_1 | apply Matches_deriv_2].
Qed.

Lemma Matches_Class_inv p s :
  Matches (Regex.Class p) s <-> exists c, s = String c "" /\ p c = true.
Proof.
  split.
  - intros H. inversion H; subst. eauto.
  - intros (c & -> & Hp). by constructor.
Qed.

Lemma Matches_Cat_inv r1 r2 s :
  Matches (Regex.Cat r1 r2) s <->
  exists s1 s2, s = String.append s1 s2 /\ Matches r1 s1 /\ Matches r2 s2.
Proof.
  split.
  - intros H. inversion H; subst. eauto.
  - intros (s1 & s2 & -> & H1 & H2). by constructor.
Qed.

Lemma Matches_Star_Class p s :
  Matches (Regex.Star (Regex.Class p)) s <-> allChars p s = true.
Proof.
  split.
  - intros H. remember (Regex.Star (Regex.Class p)) as r eqn:Er.
    induction H as [| | | | | |r s1 s2 H1 _ H2 IH2]; try discriminate; [reflexivity|].
    injection Er as ->. apply Matches_Class_inv in H1 as (c & -> & Hc).
    rewrite append_cons, append_nil_l. cbn [allChars]. rewrite Hc. by apply IH2.
  - induction s as [|c s IH]; cbn [allChars]; intros H; [constructor|].
    apply andb_prop in H as [Hc Hs].
    change (String c s) with (String.append (String c "") s).
    constructor; [by constructor | auto].
Qed.

Lemma Matches_Plus_Class p s :
  Matches (Regex.Plus (Regex.Class p)) s <->
  negb (String.eqb s "") && allChars p s = true.
Proof.
  unfold Regex.Plus. rewrite Matches_Cat_inv. split.
  - intros (s1 & s2 & -> & H1 & H2). apply Matches_Class_inv in H1 as (c & -> & Hc).
    apply Matches_Star_Class in H2. rewrite append_cons, append_nil_l.
    cbn [String.eqb negb allChars andb]. by rewrite Hc, H2.
  - destruct s as [|c s]; [discriminate|]. cbn [String.eqb negb allChars andb].
    intros H. apply andb_prop in H as [Hc Hs]. exists (String c ""), s.
    split; [reflexivity|]. split; [by constructor | by apply Matches_Star_Class].
Qed.

Lemma Matches_char (a : ascii) s :
  Matches (Regex.Class (Ascii.eqb a)) s <-> s = String a "".
Proof.
  rewrite Matches_Class_inv. split.
  - intros (c & -> & Hc). by apply Ascii.eqb_eq in Hc as ->.
  - intros ->. exists a. split; [done | apply Ascii.eqb_refl].
Qed.

(** X1.  [validateEmail] accepts exactly the strings of the shape
    [local@domain.tld] in which [local], [domain] and [tld] are non-empty
    and hold neither white space nor [@] (dots are allowed in each). *)
Theorem validateEmail_shape (s : string) :
  validateEmail (JString s) = true <->
  exists local domain tld,
    s = String.append local
          (String.append "@" (String.append domain (String.append "." tld))) /\
    emailPart local = true /\ emailPart domain = true /\ emailPart tld = true.
Proof.
  unfold validateEmail, emailRegex, emailPart. cbn [ToString]. rewrite test_Matches.
  rewrite Matches_Cat_inv. split.
  - intros (a & r1 & -> & Ha & H1). apply Matches_Cat_inv in H1 as (at_ & r2 & -> & Hat & H2).
    apply Matches_Cat_inv in H2 as (b & r3 & -> & Hb & H3).
    apply Matches_Cat_inv in H3 as (dot & c & -> & Hdot & Hc).
    apply Matches_char in Hat as ->. apply Matches_char in Hdot as ->.
    apply Matches_Plus_Class in Ha, Hb, Hc. by exists a, b, c.
  - intros (a & b & c & -> & Ha & Hb & Hc).
    exists a. eexists. split; [reflexivity|]. split; [by apply Matches_Plus_Class|].
    apply Matches_Cat_inv. exists "@". eexists. split; [reflexivity|].
    split; [by apply Matches_char|].
    apply Matches_Cat_inv. exists b. eexists. split; [reflexivity|].
    split; [by apply Matches_Plus_Class|].
    apply Matches_Cat_inv. exists ".", c. split; [reflexivity|].
    split; [by apply Matches_char | by apply Matches_Plus_Class].
Qed.

(** ** Reasoning about programs *)

Lemma Ends_any {R : Type} (p : Prog R) : Ends (fun _ => True) (fun _ => True) p.
Proof. induction p as [r|e|c k IH]; cbn [Ends]; auto. Qed.

Lemma Ends_impl {R : Type} (Q Q' : R -> Prop) (T T' : JsError -> Prop) (p : Prog R) :
  Ends Q T p -> (forall r, Q r -> Q' r) -> (forall e, T e -> T' e) -> Ends Q' T' p.
Proof. induction p as [r|e|c k IH]; cbn [Ends]; auto. Qed.

Lemma Ends_bind {A B : Type} (Q1 : A -> Prop) (Q2 : B -> Prop) T
    (p : Prog A) (f : A -> Prog B) :
  Ends Q1 T p -> (forall a, Q1 a -> Ends Q2 T (f a)) -> Ends Q2 T (bind p f).
Proof. induction p as [r|e|c k IH]; cbn [bind Ends]; auto. Qed.

Lemma Ends_try_catch {R : Type} (Q : R -> Prop) T1 T2
    (p : Prog R) (h : JsError -> Prog R) :
  Ends Q T1 p -> (forall e, T1 e -> Ends Q T2 (h e)) -> Ends Q T2 (try_catch p h).
Proof. induction p as [r|e|c k IH]; cbn [try_catch Ends]; auto. Qed.

Lemma run_Ends {R : Type} (Q : R -> Prop) T (p : Prog R) faults t :
  Ends Q T p ->
  match (run p faults t).1 with
  | inr r => Q r
  | inl e => T e
  end.
Proof.
  revert faults t. induction p as [r|e|c k IH]; cbn [Ends run]; intros faults t H;
    [exact H | exact H |].
  destruct faults as [|[e|] faults]; [destruct (perform c t) | | destruct (perform c t)];
    apply IH, H.
Qed.

Lemma AllSent_impl {R : Type} (P P' : Command -> Prop) (p : Prog R) :
  AllSent P p -> (forall c, P c -> P' c) -> AllSent P' p.
Proof.
  induction p as [r|e|c k IH]; cbn [AllSent]; [done | done |].
  intros [Hc Hk] Himpl. split; auto.
Qed.

Lemma AllSent_bind {A B : Type} (P : Command -> Prop) (p : Prog A) (f : A -> Prog B) :
  AllSent P p -> (forall a, AllSent P (f a)) -> AllSent P (bind p f).
Proof.
  induction p as [r|e|c k IH]; cbn [bind AllSent]; [auto | done |].
  intros [Hc Hk] Hf. split; auto.
Qed.

Lemma AllSent_try_catch {R : Type} (P : Command -> Prop) (p : Prog R)
    (h : JsError -> Prog R) :
  AllSent P p -> (forall e, AllSent P (h e)) -> AllSent P (try_catch p h).
Proof.
  induction p as [r|e|c k IH]; cbn [try_catch AllSent]; [done | auto |].
  intros [Hc Hk] Hh. split; auto.
Qed.

Lemma AllSent_send (P : Command -> Prop) c : P c -> AllSent P (send c).
Proof. intros Hc. split; [exact Hc|]. by intros [e|out]. Qed.

Lemma AtMost_mono {R : Type} (n m : nat) (p : Prog R) :
  AtMost n p -> (n <= m)%nat -> AtMost m p.
Proof.
  revert n m. induction p as [r|e|c k IH]; intros n m; cbn [AtMost]; [done | done |]. destruct n as [|n]; [done|]. destruct m as [|m]; [lia|].
  intros H Hle out. apply (IH out n m); [apply H | lia].
Qed.

Lemma AtMost_bind {A B : Type} (n m : nat) (p : Prog A) (f : A -> Prog B) :
  AtMost n p -> (forall a, AtMost m (f a)) -> AtMost (n + m) (bind p f).
Proof.
  revert n. induction p as [r|e|c k IH]; cbn [bind AtMost]; intros n Hp Hf.
  - eapply AtMost_mono; [apply Hf | lia].
  - exact I.
  - destruct n as [|n]; [done|]. cbn [Nat.add]. intros out. apply IH; auto.
Qed.

Lemma AtMost_try_catch {R : Type} (n m : nat) (p : Prog R) (h : JsError -> Prog R) :
  AtMost n p -> (forall e, AtMost m (h e)) -> AtMost (n + m) (try_catch p h).
Proof.
  revert n. induction p as [r|e|c k IH]; cbn [try_catch AtMost]; intros n Hp Hh.
  - exact I.
  - eapply AtMost_mono; [apply Hh | lia].
  - destruct n as [|n]; [done|]. cbn [Nat.add]. intros out. apply IH; auto.
Qed.

Lemma AtMost_send (c : Command) : AtMost 1 (send c).
Proof. intros [e|out]; exact I. Qed.

Lemma sent_AtMost {R : Type} (n : nat) (p : Prog R) faults t :
  AtMost n p -> (sent p faults t <= n)%nat.
Proof.
  revert n faults t. induction p as [r|e|c k IH]; cbn [AtMost sent]; intros n faults t H;
    [lia | lia |].
  destruct n as [|n]; [done|].
  destruct faults as [|[e|] faults]; [destruct (perform c t) | | destruct (perform c t)];
    apply le_n_S, IH, H.
Qed.

(** A key that no command of the program may write keeps its item. *)
Lemma perform_unwritten c t key :
  key ∉ written c -> (perform c t).2 !! key = t !! key.
Proof.
  intros Hkey. destruct c as [input|k|k item|input|input]; cbn [perform snd]; try done.
  - apply lookup_insert_ne. intros ->. apply Hkey. by left.
  - unfold update. destruct (t !! update_Key input) as [[e|r]|]; try done.
    destruct (_ =? _); [|done]. cbn [snd]. apply lookup_insert_ne.
    intros Heq. apply Hkey. cbn [written]. rewrite Heq. by left.
Qed.

Lemma run_unwritten {R : Type} (p : Prog R) faults t key :
  AllSent (fun c => key ∉ written c) p -> (run p faults t).2 !! key = t !! key.
Proof.
  revert faults t. induction p as [r|e|c k IH]; cbn [AllSent run]; intros faults t H;
    [done | done |].
  destruct H as [Hc Hk].
  destruct faults as [|[e|] faults].
  - pose proof (perform_unwritten c t key Hc) as Hp.
    destruct (perform c t) as [out t']. cbn [snd] in Hp. by rewrite IH.
  - by apply IH.
  - pose proof (perform_unwritten c t key Hc) as Hp.
    destruct (perform c t) as [out t']. cbn [snd] in Hp. by rewrite IH.
Qed.

(** A program that only reads leaves the table as it is. *)
Lemma run_read_only {R : Type} (p : Prog R) faults t :
  AllSent (fun c => written c = []) p -> (run p faults t).2 = t.
Proof.
  intros H. apply map_eq. intros key. apply run_unwritten.
  eapply AllSent_impl; [exact H|]. intros c ->. apply not_elem_of_nil.
Qed.

(** ** The register handler as a whole *)

Lemma truthy_string_Some (x : option string) (s : string) :
  truthy_string x = Some s -> x = Some s /\ s <> "".
Proof.
  destruct x as [s'|]; cbn [truthy_string]; [|discriminate].
  destruct (String.eqb_spec s' "") as [->|Hne]; [discriminate|].
  by intros [= <-].
Qed.

(** Either the handler answers at once, or the request is well-formed and
    the handler goes on to the table. *)
Lemma registerEventHandler_cases g event :
  (exists r, registerEventHandler g event = Return r /\ earlyResponse r) \/
  (exists eventId attendeeEmail attendeeName groupSize,
     wellFormed event eventId attendeeEmail attendeeName groupSize).
Proof.
  assert (Hreq : forall msg, earlyResponse (errorResponse 400 "INVALID_REQUEST" msg)).
  { intros msg. left. split; [reflexivity|]. do 2 eexists. split; [reflexivity|].
    apply list_elem_of_here. }
  unfold registerEventHandler.
  destruct (truthy_string (pathParameters_id event)) as [eventId|] eqn:Hid;
    [|left; eexists; split; [reflexivity | apply Hreq]].
  apply truthy_string_Some in Hid as [Hid Hne].
  destruct (request_body event) as [| |attendeeEmail attendeeName groupSize] eqn:Hbody.
  { left. eexists. split; [reflexivity | apply Hreq]. }
  { left. eexists. split; [reflexivity | by right]. }
  destruct (truthy attendeeEmail) eqn:Hte;
    [|left; eexists; split; [reflexivity | apply Hreq]].
  destruct (truthy attendeeName) eqn:Htn;
    [|left; eexists; split; [reflexivity | apply Hreq]].
  cbn [negb orb].
  destruct (validateEmail attendeeEmail) eqn:Hve; cbn [negb].
  2:{ left. eexists. split; [reflexivity|]. left. split; [reflexivity|].
      do 2 eexists. split; [reflexivity|]. apply list_elem_of_further, list_elem_of_here. }
  destruct attendeeName as [| | | |name];
    try (left; eexists; split; [reflexivity | apply Hreq]).
  cbn [typeof asString String.eqb Ascii.eqb Bool.eqb negb orb].
  destruct (Js.trim name) as [|c trimmed] eqn:Htrim;
    [left; eexists; split; [reflexivity | apply Hreq]|].
  cbn [String.length Nat.eqb].
  assert (Hname : Js.trim name <> "") by (rewrite Htrim; discriminate).
  destruct groupSize as [| | |n|];
    try (left; eexists; split; [reflexivity | apply Hreq]).
  - right. exists eventId, attendeeEmail, name, 1.
    repeat split; try done. left. by split.
  - cbn [typeof asNumber Number_isInteger String.eqb Ascii.eqb Bool.eqb negb orb].
    destruct (n <? 1) eqn:Hn; [left; eexists; split; [reflexivity | apply Hreq]|].
    right. exists eventId, attendeeEmail, name, n.
    repeat split; try done; [by right | lia].
Qed.

Ltac known_400 :=
  cbn; left; split; [reflexivity|];
  repeat first [apply list_elem_of_here | apply list_elem_of_further].

Ltac late_tac :=
  split;
  [ first [ known_400
          | cbn; right; left; split; reflexivity
          | cbn; right; right; split; reflexivity
          | cbn; split; reflexivity ]
  | let H := fresh in
    intros ? ? [=]; subst; intros H;
    repeat (apply elem_of_cons in H as [H|H]; [discriminate|]);
    by apply elem_of_nil in H ].

Lemma afterValidation_Ends g eventId attendeeEmail attendeeName groupSize :
  Ends lateResponse (fun _ => False)
       (afterValidation g eventId attendeeEmail attendeeName groupSize).
Proof.
  unfold afterValidation.
  apply Ends_try_catch with (T1 := fun _ => True); [|intros e _; cbn [Ends]; late_tac].
  eapply Ends_bind; [apply Ends_any|]. intros [existingEvent|] _; [|cbn [Ends]; late_tac].
  eapply Ends_bind; [apply Ends_any|]. intros [|] _; [cbn [Ends]; late_tac|].
  destruct (_ >=? _); [cbn [Ends]; late_tac|].
  apply Ends_try_catch with (T1 := fun _ => True).
  - eapply Ends_bind; [apply Ends_any|]. intros [registration event'] _.
    cbn [Ends]. split; [cbn; split; reflexivity|]. intros ? ? [=].
  - intros e _. destruct (String.eqb (message e) "INSUFFICIENT_CAPACITY");
      cbn [Ends]; [late_tac | exact I].
Qed.

(** X2.  The register handler never throws: whatever the table holds and
    whichever commands are rejected, it returns a response, and the
    response is 200 with the registration, 400 with one of the five
    rejection codes, 404 [EVENT_NOT_FOUND] or 500 [INTERNAL_ERROR]. *)
Theorem registerEventHandler_always_responds g event faults t :
  exists r, (run (registerEventHandler g event) faults t).1 = inr r /\
            knownResponse r.
Proof.
  destruct (registerEventHandler_cases g event)
    as [(r & -> & Hr)|(eventId & email & name & n & Hwf)].
  - exists r. split; [reflexivity|].
    destruct Hr as [(Hs & error & msg & Hb & Hin)| ->].
    + unfold knownResponse. rewrite Hb. left. split; [exact Hs|].
      apply elem_of_cons in Hin as [->|Hin]; [apply list_elem_of_here|].
      apply list_elem_of_singleton in Hin as ->.
      apply list_elem_of_further, list_elem_of_here.
    + cbn. right. right. by split.
  - rewrite (registerEventHandler_wellFormed _ _ _ _ _ _ Hwf).
    pose proof (run_Ends _ _ _ faults t
                  (afterValidation_Ends g eventId email name n)) as H.
    destruct (run _ faults t).1 as [e|r]; [done|]. exists r. split; [reflexivity | apply H].
Qed.

(** X3.  Every rejection for the shape of the request, [INVALID_REQUEST]
    as well as [INVALID_EMAIL], is decided before the table is involved:
    the handler is then a plain return, no command is sent and the table
    is left as it is. *)
Theorem validation_rejections_send_nothing g event faults t r t' error msg :
  run (registerEventHandler g event) faults t = (inr r, t') ->
  body r = ErrorBody error msg ->
  error ∈ ["INVALID_REQUEST"; "INVALID_EMAIL"] ->
  registerEventHandler g event = Return r /\ t' = t /\
  sent (registerEventHandler g event) faults t = 0%nat.
Proof.
  intros Hrun Hbody Herr.
  destruct (registerEventHandler_cases g event)
    as [(r0 & Heq & _)|(eventId & email & name & n & Hwf)].
  - rewrite Heq in Hrun |- *. cbn [run] in Hrun. injection Hrun as <- <-. done.
  - rewrite (registerEventHandler_wellFormed _ _ _ _ _ _ Hwf) in Hrun.
    pose proof (run_Ends _ _ _ faults t
                  (afterValidation_Ends g eventId email name n)) as H.
    rewrite Hrun in H. cbn [fst] in H. destruct H as [_ H].
    by destruct (H _ _ Hbody).
Qed.

Lemma validation_rejections_send_nothing_witness :
  registerEventHandler (generated "1")
    (sampleRequest "1" "user@example.com" "John Doe" (JNumber 0))
  = Return (errorResponse 400 "INVALID_REQUEST" "Group size must be a positive integer")
  /\ oneEvent "1" 30 0 = oneEvent "1" 30 0 /\
  sent (registerEventHandler (generated "1")
          (sampleRequest "1" "user@example.com" "John Doe" (JNumber 0)))
       [] (oneEvent "1" 30 0) = 0%nat.
Proof.
  apply (validation_rejections_send_nothing (generated "1")
           (sampleRequest "1" "user@example.com" "John Doe" (JNumber 0))
           [] (oneEvent "1" 30 0) _ _ "INVALID_REQUEST"
           "Group size must be a positive integer").
  - reflexivity.
  - reflexivity.
  - apply list_elem_of_here.
Defined.

Lemma getEvent_AtMost eventId : AtMost 1 (getEvent eventId).
Proof.
  unfold getEvent. apply (AtMost_bind 1 0); [apply AtMost_send|].
  intros [[e|r]|]; exact I.
Qed.

Lemma checkDuplicateRegistration_AtMost eventId email :
  AtMost 1 (checkDuplicateRegistration eventId email).
Proof.
  unfold checkDuplicateRegistration. apply (AtMost_bind 1 0); [apply AtMost_send|].
  intros items. exact I.
Qed.

Lemma registerForEvent_AtMost g eventId attendeeEmail attendeeName groupSize :
  AtMost 3 (registerForEvent g eventId attendeeEmail attendeeName groupSize).
Proof.
  unfold registerForEvent. apply (AtMost_bind 1 2); [apply getEvent_AtMost|].
  intros [event|]; [|exact I]. destruct (_ >? _); [exact I|].
  apply (AtMost_bind 1 1).
  - apply (AtMost_try_catch 1 0); [apply AtMost_send|].
    intros e. destruct (String.eqb _ _); exact I.
  - intros item. apply (AtMost_bind 1 0); [apply AtMost_send|].
    intros _. destruct item; exact I.
Qed.

Lemma afterValidation_AtMost g eventId attendeeEmail attendeeName groupSize :
  AtMost 5 (afterValidation g eventId attendeeEmail attendeeName groupSize).
Proof.
  unfold afterValidation. apply (AtMost_try_catch 5 0); [|intros; exact I].
  apply (AtMost_bind 1 4); [apply getEvent_AtMost|].
  intros [existingEvent|]; [|exact I].
  apply (AtMost_bind 1 3); [apply checkDuplicateRegistration_AtMost|].
  intros [|]; [exact I|]. destruct (_ >=? _); [exact I|].
  apply (AtMost_try_catch 3 0).
  - apply (AtMost_bind 3 0); [apply registerForEvent_AtMost | intros; exact I].
  - intros e. destruct (String.eqb _ _); exact I.
Qed.

(** X4.  One register request sends at most five commands (two reads of
    the event, one query, one conditional update, one put), whatever the
    table holds and whichever commands are rejected: nothing is retried. *)
Theorem registerEventHandler_sends_at_most_five g event faults t :
  (sent (registerEventHandler g event) faults t <= 5)%nat.
Proof.
  destruct (registerEventHandler_cases g event)
    as [(r & -> & _)|(eventId & email & name & n & Hwf)].
  - cbn. lia.
  - rewrite (registerEventHandler_wellFormed _ _ _ _ _ _ Hwf).
    apply sent_AtMost, afterValidation_AtMost.
Qed.

(** The commands of a registration, for any property of commands that
    holds of the four kinds it sends. *)
Lemma afterValidation_AllSent (P : Command -> Prop)
    g eventId attendeeEmail attendeeName groupSize :
  P (GetItemCommand (EVENT_ eventId, METADATA)) ->
  P (QueryCommand {| query_PK := EVENT_ eventId;
                     query_SK_begins_with := "REGISTRATION#";
                     query_FilterEmail := attendeeEmail;
                     query_Limit := 1 |}) ->
  (forall current,
     P (UpdateItemCommand {| update_Key := (EVENT_ eventId, METADATA);
                             newRegistered := current + groupSize;
                             currentRegistered := current |})) ->
  (forall item,
     P (PutItemCommand (EVENT_ eventId, REGISTRATION_ (gen_registrationId g)) item)) ->
  AllSent P (afterValidation g eventId attendeeEmail attendeeName groupSize).
Proof.
  intros Hget Hquery Hupdate Hput.
  assert (HgetEvent : AllSent P (getEvent eventId)).
  { unfold getEvent. apply AllSent_bind; [by apply AllSent_send|].
    intros [[e|r]|]; exact I. }
  unfold afterValidation. apply AllSent_try_catch; [|intros; exact I].
  apply AllSent_bind; [exact HgetEvent|]. intros [existingEvent|]; [|exact I].
  apply AllSent_bind.
  { unfold checkDuplicateRegistration. apply AllSent_bind; [by apply AllSent_send|].
    intros; exact I. }
  intros [|]; [exact I|]. destruct (_ >=? _); [exact I|].
  apply AllSent_try_catch; [|intros e; destruct (String.eqb _ _); exact I].
  apply AllSent_bind; [|intros; exact I].
  unfold registerForEvent. apply AllSent_bind; [exact HgetEvent|].
  intros [event|]; [|exact I]. destruct (_ >? _); [exact I|].
  apply AllSent_bind.
  - apply AllSent_try_catch; [apply AllSent_send, Hupdate|].
    intros e. destruct (String.eqb _ _); exact I.
  - intros item. apply AllSent_bind; [apply AllSent_send, Hput|].
    intros _. destruct item; exact I.
Qed.

(** X5.  A register request touches nothing but its own event: every key
    other than the [METADATA] key of the event in the path and the key of
    the registration record it generates holds after the request what it
    held before, whichever commands are rejected. *)
Theorem registerEventHandler_frame g event faults t key :
  (run (registerEventHandler g event) faults t).2 !! key = t !! key \/
  exists eventId,
    pathParameters_id event = Some eventId /\
    (key = (EVENT_ eventId, METADATA) \/
     key = (EVENT_ eventId, REGISTRATION_ (gen_registrationId g))).
Proof.
  destruct (registerEventHandler_cases g event)
    as [(r & -> & _)|(eventId & email & name & n & Hwf)]; [by left|].
  destruct (decide (key = (EVENT_ eventId, METADATA))) as [->|Hmeta].
  { right. exists eventId. split; [apply Hwf | by left]. }
  destruct (decide (key = (EVENT_ eventId, REGISTRATION_ (gen_registrationId g))))
    as [->|Hreg].
  { right. exists eventId. split; [apply Hwf | by right]. }
  left. rewrite (registerEventHandler_wellFormed _ _ _ _ _ _ Hwf).
  apply run_unwritten. apply afterValidation_AllSent; cbn [written update_Key].
  - apply not_elem_of_nil.
  - apply not_elem_of_nil.
  - intros current. apply not_elem_of_cons. split; [exact Hmeta | apply not_elem_of_nil].
  - intros item. apply not_elem_of_cons. split; [exact Hreg | apply not_elem_of_nil].
Qed.

(** ** One request running alone, continued *)








(** ** The duplicate check, continued *)

Lemma elem_of_partition_range pk prefix t (it : Item) :
  it ∈ partition_range pk prefix t <->
  t !! it.1 = Some it.2 /\ PK it = pk /\ String.prefix prefix (SK it) = true.
Proof.
  unfold partition_range. rewrite merge_sort_Permutation, elem_of_filter_bool.
  destruct it as [key item]. rewrite elem_of_map_to_list. cbn [fst snd].
  rewrite andb_true_iff, String.eqb_eq. tauto.
Qed.

(** X8.  [checkDuplicateRegistration] reports no duplicate that is not
    there: when it returns [true], the partition of the event holds a
    registration record with exactly that e-mail address. *)
Theorem checkDuplicateRegistration_sound eventId email faults t t' :
  run (checkDuplicateRegistration eventId email) faults t = (inr true, t') ->
  exists sk r,
    String.prefix "REGISTRATION#" sk = true /\
    t !! (EVENT_ eventId, sk) = Some (RegistrationRecord r) /\
    attendeeEmail r = email.
Proof.
  unfold checkDuplicateRegistration, send. cbn [bind]. intros Hrun.
  assert (Hitems : exists items,
             query {| query_PK := EVENT_ eventId;
                      query_SK_begins_with := "REGISTRATION#";
                      query_FilterEmail := email; query_Limit := 1 |} t = inr items /\
             (Z.of_nat (length items) >? 0) = true).
  { destruct faults as [|[e|] faults]; cbn [run perform bind] in Hrun;
      [|discriminate|]; destruct (query _ t) as [e|items]; try discriminate;
      cbn [bind run] in Hrun; injection Hrun as Hlen _; eauto. }
  destruct Hitems as (items & Hquery & Hlen).
  unfold query in Hquery. cbn in Hquery. injection Hquery as <-.
  destruct (List.filter _ _) as [|it rest] eqn:Hfilter; [discriminate|].
  assert (Hin : it ∈ List.filter (email_matches email)
                       (take 1 (partition_range (EVENT_ eventId) "REGISTRATION#" t))).
  { change 1%nat with (Z.to_nat 1). rewrite Hfilter. apply list_elem_of_here. }
  apply elem_of_filter_bool in Hin as [Hin Hmatch].
  apply subseteq_take, elem_of_partition_range in Hin as (Hlook & Hpk & Hsk).
  destruct it as [[pk sk] [e|r]]; unfold email_matches in Hmatch; cbn in *; [discriminate|].
  subst pk. apply bool_decide_eq_true in Hmatch. eauto.
Qed.

Lemma checkDuplicateRegistration_sound_witness :
  exists sk r,
    String.prefix "REGISTRATION#" sk = true /\
    twoRegistrations !! (EVENT_ "1", sk) = Some (RegistrationRecord r) /\
    attendeeEmail r = JString "first@example.com".
Proof.
  assert (Hresult :
            (run (checkDuplicateRegistration "1" (JString "first@example.com"))
                 [] twoRegistrations).1 = inr true)
    by (vm_compute; reflexivity).
  destruct (run _ [] twoRegistrations) as [result t'] eqn:Hrun.
  cbn [fst] in Hresult. subst result.
  exact (checkDuplicateRegistration_sound _ _ _ _ _ Hrun).
Defined.

(** ** The read operations *)

Lemma getEvent_reads eventId : AllSent (fun c => written c = []) (getEvent eventId).
Proof.
  unfold getEvent. apply AllSent_bind; [by apply AllSent_send|].
  intros [[e|r]|]; exact I.
Qed.

Lemma listEvents_reads params : AllSent (fun c => written c = []) (listEvents params).
Proof.
  unfold listEvents. apply AllSent_bind; [by apply AllSent_send|]. intros out.
  destruct (mapM_unmarshallEvent (fun item => Js.replace (PK item) "EVENT#" "")
              (Items out)) as [[events ->]|[e ->]]; exact I.
Qed.

(** X9.  The read operations never write: whatever the table holds and
    whichever commands are rejected, [listEvents], [getEvent],
    [checkDuplicateRegistration] and the two read handlers leave the table
    exactly as it was. *)
Theorem read_operations_never_write faults t :
  (forall params, (run (listEvents params) faults t).2 = t) /\
  (forall eventId, (run (getEvent eventId) faults t).2 = t) /\
  (forall eventId email,
     (run (checkDuplicateRegistration eventId email) faults t).2 = t) /\
  (forall event, (run (listEventsHandler event) faults t).2 = t) /\
  (forall pathId, (run (getEventHandler pathId) faults t).2 = t).
Proof.
  repeat split; intros; apply run_read_only.
  - apply listEvents_reads.
  - apply getEvent_reads.
  - unfold checkDuplicateRegistration. apply AllSent_bind; [by apply AllSent_send|].
    intros; exact I.
  - unfold listEventsHandler. apply AllSent_try_catch; [|intros; exact I].
    destruct (limit_rejected _); [exact I|].
    apply AllSent_bind; [apply listEvents_reads | intros; exact I].
  - unfold getEventHandler. apply AllSent_try_catch; [|intros; exact I].
    destruct (truthy_string pathId); [|exact I].
    apply AllSent_bind; [apply getEvent_reads|]. intros [?|]; exact I.
Qed.

(** ** Listing events, continued *)

(** What a run of [listEvents] that returns has done. *)
Lemma run_listEvents_inv params faults t result t' :
  run (listEvents params) faults t = (inr result, t') ->
  exists out events,
    scan {| scan_FilterSK := METADATA;
            scan_Limit := listEvents_limit params * 2;
            ExclusiveStartKey := params_lastKey params |} t = inr out /\
    mapM (fun item => unmarshallEvent (Js.replace (PK item) "EVENT#" "") item.2)
         (Items out) = Return events /\
    result = listEvents_result params (listEvents_filter params events)
                               (LastEvaluatedKey out) /\
    t' = t.
Proof.
  unfold listEvents, send. cbn [bind]. intros Hrun.
  assert (Hscan : exists out faults',
             scan {| scan_FilterSK := METADATA;
                     scan_Limit := listEvents_limit params * 2;
                     ExclusiveStartKey := params_lastKey params |} t = inr out /\
             run (await events <- mapM (fun item =>
                      unmarshallEvent (Js.replace (PK item) "EVENT#" "") item.2)
                      (Items out);
                  Return (listEvents_result params (listEvents_filter params events)
                            (LastEvaluatedKey out))) faults' t = (inr result, t')).
  { destruct faults as [|[e|] faults]; cbn [run perform bind] in Hrun;
      [|discriminate|]; destruct (scan _ t) as [e|out]; try discriminate; eauto. }
  destruct Hscan as (out & faults' & Hscan & Hrest). exists out.
  destruct (mapM_unmarshallEvent (fun item => Js.replace (PK item) "EVENT#" "")
              (Items out)) as [[events Hev]|[e Hev]]; rewrite Hev in Hrest;
    cbn [bind run] in Hrest; [|discriminate].
  injection Hrest as <- <-. by exists events.
Qed.

Lemma length_slice0 {A : Type} (l : list A) (n : Z) :
  0 <= n -> Z.of_nat (length (slice0 l n)) <= n.
Proof.
  intros Hn. unfold slice0. replace (n <? 0) with false by lia.
  rewrite length_take. lia.
Qed.

Lemma threeEvents_eventKeyed : eventKeyed threeEvents.
Proof.
  intros pk item H. unfold threeEvents, oneEvent in H.
  apply lookup_insert_Some in H as [[Hk <-]|[_ H]].
  { injection Hk as <-. by eexists _, _. }
  apply lookup_insert_Some in H as [[Hk <-]|[_ H]].
  { injection Hk as <-. by eexists _, _. }
  apply lookup_singleton_Some in H as [Hk <-].
  injection Hk as <-. by eexists _, _.
Qed.

Lemma threeEvents_typed : typed threeEvents.
Proof.
  intros pk item H. destruct (threeEvents_eventKeyed pk item H) as (? & e & _ & ->).
  by exists e.
Qed.

(** X10.  A page of [listEvents] never holds more events than the limit
    in force, which is the requested limit, 25 when none (or 0) is given,
    and never more than 100; [total] is bounded alike. *)
Theorem listEvents_page_size params faults t result t' :
  run (listEvents params) faults t = (inr result, t') ->
  Z.of_nat (length (events result)) <= listEvents_limit params /\
  total result <= listEvents_limit params /\
  1 <= listEvents_limit params <= 100 /\
  listEvents_limit params = Z.min (match params_limit params with
                                   | Some 0 | None => 25
                                   | Some n => n
                                   end) 100.
Proof.
  intros Hrun. apply run_listEvents_inv in Hrun as (out & evs & Hscan & _ & -> & _).
  assert (Hlimit : 1 <= listEvents_limit params <= 100).
  { unfold scan in Hscan. cbn [scan_Limit] in Hscan.
    destruct (listEvents_limit params * 2 <? 1) eqn:Hlt; [discriminate|].
    unfold listEvents_limit in *. lia. }
  unfold listEvents_result. cbn [events total].
  repeat split; try lia; try (apply length_slice0; lia).
  unfold listEvents_limit, number_or. destruct (params_limit params) as [[| |]|]; reflexivity.
Qed.

Lemma listEvents_page_size_witness :
  match run (listEvents (noFilter (Some 2))) [] threeEvents with
  | (inr result, _) =>
      Z.of_nat (length (events result)) <= 2 /\ total result <= 2 /\
      1 <= 2 <= 100 /\ 2 = Z.min 2 100
  | (inl _, _) => False
  end.
Proof.
  destruct (listEvents_returns (noFilter (Some 2)) threeEvents) as [result Hrun].
  - apply threeEvents_typed.
  - vm_compute. discriminate.
  - rewrite Hrun. exact (listEvents_page_size _ _ _ _ _ Hrun).
Defined.

(** X11.  The filters of [listEvents] are exact and conjunctive: an event
    of the scanned buffer is kept if and only if it has the given category
    id, holds the search text in its title or description without regard
    to case, and has the given status ([registered < max] for
    "available", [registered >= max] for "full").  A filter that is
    absent or the empty string, and a status other than these two, keeps
    everything. *)
Theorem listEvents_filter_exact params events (e : Event) :
  e ∈ listEvents_filter params events <->
  e ∈ events /\
  (forall c, params_category params = Some c -> c <> "" -> cat_id (category e) = c) /\
  (forall s, params_search params = Some s -> s <> "" ->
     Js.includes (Js.toLowerCase (title e)) (Js.toLowerCase s)
     || Js.includes (Js.toLowerCase (description e)) (Js.toLowerCase s) = true) /\
  (params_status params = Some "available" ->
     registered (capacity e) < max (capacity e)) /\
  (params_status params = Some "full" ->
     registered (capacity e) >= max (capacity e)).
Proof.
  unfold listEvents_filter.
  set (byCategory := match truthy_string (params_category params) with
                     | Some c => _ | None => events end).
  set (bySearch := match truthy_string (params_search params) with
                   | Some s => _ | None => byCategory end).
  assert (Hcat : e ∈ byCategory <->
                 e ∈ events /\
                 (forall c, params_category params = Some c -> c <> "" ->
                            cat_id (category e) = c)).
  { unfold byCategory. destruct (params_category params) as [c|]; cbn [truthy_string].
    - destruct (String.eqb_spec c "") as [->|Hne].
      + split; [intros H; split; [done|]; by intros c [= <-] | by intros [H _]].
      + rewrite elem_of_filter_bool, String.eqb_eq. split.
        * intros [H Hc]. split; [done|]. by intros c' [= <-].
        * intros [H Hc]. split; [done|]. by apply Hc.
    - split; [intros H; split; [done | discriminate] | by intros [H _]]. }
  assert (Hsearch : e ∈ bySearch <->
                    e ∈ byCategory /\
                    (forall s, params_search params = Some s -> s <> "" ->
                       Js.includes (Js.toLowerCase (title e)) (Js.toLowerCase s)
                       || Js.includes (Js.toLowerCase (description e))
                                      (Js.toLowerCase s) = true)).
  { unfold bySearch. destruct (params_search params) as [s|]; cbn [truthy_string].
    - destruct (String.eqb_spec s "") as [->|Hne].
      + split; [intros H; split; [done|]; by intros s [= <-] | by intros [H _]].
      + rewrite elem_of_filter_bool. split.
        * intros [H Hs]. split; [done|]. by intros s' [= <-].
        * intros [H Hs]. split; [done|]. by apply Hs.
    - split; [intros H; split; [done | discriminate] | by intros [H _]]. }
  assert (Hstatus :
            e ∈ match truthy_string (params_status params) with
                | Some status =>
                    if String.eqb status "available"
                    then List.filter (fun e : Event =>
                           registered (capacity e) <? max (capacity e)) bySearch
                    else if String.eqb status "full"
                    then List.filter (fun e : Event =>
                           registered (capacity e) >=? max (capacity e)) bySearch
                    else bySearch
                | None => bySearch
                end <->
            e ∈ bySearch /\
            (params_status params = Some "available" ->
               registered (capacity e) < max (capacity e)) /\
            (params_status params = Some "full" ->
               registered (capacity e) >= max (capacity e))).
  { destruct (params_status params) as [status|]; cbn [truthy_string].
    - destruct (String.eqb_spec status "") as [->|Hne].
      { split; [intros H; split; [done|]; split; discriminate | by intros [H _]]. }
      destruct (String.eqb_spec status "available") as [->|Hav].
      { rewrite elem_of_filter_bool. split.
        - intros [H Hlt]. split; [done|]. split; [intros _; lia | discriminate].
        - intros (H & Hlt & _). split; [done|]. specialize (Hlt eq_refl). lia. }
      destruct (String.eqb_spec status "full") as [->|Hfull].
      { rewrite elem_of_filter_bool. split.
        - intros [H Hge]. split; [done|]. split; [discriminate | intros _; lia].
        - intros (H & _ & Hge). split; [done|]. specialize (Hge eq_refl). lia. }
      split; [intros H; split; [done|]; split; congruence | by intros [H _]].
    - split; [intros H; split; [done|]; split; discriminate | by intros [H _]]. }
  rewrite Hstatus, Hsearch, Hcat. tauto.
Qed.

Lemma substring_all (s : string) : String.substring 0 (String.length s) s = s.
Proof. induction s as [|c s IH]; [reflexivity|]. cbn. by rewrite IH. Qed.

(** The event id is read back from the partition key. *)
Lemma replace_EVENT (eventId : string) : Js.replace (EVENT_ eventId) "EVENT#" "" = eventId.
Proof.
  change (EVENT_ eventId)
    with (String "E" (String "V" (String "E" (String "N" (String "T"
            (String "#" eventId)))))).
  cbn. rewrite Nat.sub_0_r.
  replace (String.prefix "" eventId) with true by by destruct eventId.
  apply substring_all.
Qed.

Lemma mapM_unmarshallEvent_ids (f : Item -> string) (items : list Item) events :
  mapM (fun item => unmarshallEvent (f item) item.2) items = Return events ->
  id <$> events = f <$> items.
Proof.
  revert events. induction items as [|[key [e|r]] items IH]; intros events; cbn [mapM].
  - by intros [= <-].
  - destruct (mapM_unmarshallEvent f items) as [[evs Heq]|[err Heq]]; rewrite Heq;
      cbn [unmarshallEvent bind snd]; [|discriminate].
    intros [= <-]. cbn. f_equal. by apply IH.
  - discriminate.
Qed.

Lemma sublist_filter_bool {A : Type} (f : A -> bool) (l : list A) :
  List.filter f l `sublist_of` l.
Proof.
  induction l as [|a l IH]; cbn; [done|].
  destruct (f a); [by apply sublist_skip | by apply sublist_cons].
Qed.

Lemma sublist_slice0 {A : Type} (l : list A) (n : Z) : slice0 l n `sublist_of` l.
Proof. unfold slice0. destruct (n <? 0); apply sublist_take. Qed.

Lemma sublist_listEvents_filter params events :
  listEvents_filter params events `sublist_of` events.
Proof.
  unfold listEvents_filter.
  set (byCategory := match truthy_string (params_category params) with
                     | Some c => _ | None => events end).
  set (bySearch := match truthy_string (params_search params) with
                   | Some s => _ | None => byCategory end).
  assert (H1 : byCategory `sublist_of` events).
  { unfold byCategory. destruct (truthy_string (params_category params));
      [apply sublist_filter_bool | done]. }
  assert (H2 : bySearch `sublist_of` byCategory).
  { unfold bySearch. destruct (truthy_string (params_search params));
      [apply sublist_filter_bool | done]. }
  transitivity bySearch; [|by transitivity byCategory].
  destruct (truthy_string (params_status params)); [|done].
  repeat (destruct (String.eqb _ _); [apply sublist_filter_bool|]). done.
Qed.

Lemma after_suffix (k : Key) (l : list Item) :
  exists pre, l = (pre ++ after k l)%list.
Proof.
  induction l as [|it l [pre IH]]; [by exists []|]. cbn [after].
  destruct (decide (it.1 = k)); [by exists [it]|].
  exists (it :: pre). cbn. by rewrite <- IH.
Qed.

Lemma after_unique (l1 l2 : list Item) (x : Item) :
  NoDup (fst <$> (l1 ++ x :: l2)%list) -> after x.1 (l1 ++ x :: l2)%list = l2.
Proof.
  induction l1 as [|it l1 IH]; cbn [app after fmap list_fmap]; intros Hnd.
  - by rewrite decide_True.
  - apply NoDup_cons in Hnd as [Hit Hnd]. rewrite decide_False; [by apply IH|].
    intros Heq. apply Hit. rewrite Heq. apply list_elem_of_fmap.
    exists x. split; [done|]. apply elem_of_app. right. by left.
Qed.

(** The part of the table a run of [listEvents] has evaluated: it follows
    the start key, every returned event comes from one of its [METADATA]
    items, and the returned token is the key of its last item. *)
Lemma listEvents_evaluated params faults t result t' :
  run (listEvents params) faults t = (inr result, t') ->
  exists (evaluated rest : list Item) (buffer : list Event),
    match params_lastKey params with
    | None => map_to_list t
    | Some k => after k (map_to_list t)
    end = (evaluated ++ rest)%list /\
    events result `sublist_of` buffer /\
    id <$> buffer
    = (fun item => Js.replace (PK item) "EVENT#" "")
        <$> List.filter (fun it => String.eqb (SK it) METADATA) evaluated /\
    (forall k, lastKey result = Some k ->
               exists init x, evaluated = (init ++ [x])%list /\ x.1 = k).
Proof.
  intros Hrun. apply run_listEvents_inv in Hrun as (out & evs & Hscan & Hmap & -> & _).
  unfold scan in Hscan. cbn [scan_Limit scan_FilterSK ExclusiveStartKey] in Hscan.
  destruct (_ <? 1); [discriminate|]. injection Hscan as <-.
  cbn [Items LastEvaluatedKey] in *. unfold scan_order in *.
  set (start := match params_lastKey params with
                | None => map_to_list t
                | Some k => after k (map_to_list t)
                end) in *.
  set (n := Z.to_nat (listEvents_limit params * 2)) in *.
  exists (take n start), (drop n start), evs.
  split; [by rewrite take_drop|]. split.
  { unfold listEvents_result. cbn [events].
    transitivity (listEvents_filter params evs);
      [apply sublist_slice0 | apply sublist_listEvents_filter]. }
  split; [by apply mapM_unmarshallEvent_ids|].
  intros k. rewrite listEvents_result_lastKey.
  destruct (_ <? _); [discriminate|].
  destruct (last (take n start)) as [x|] eqn:Hlast; [|discriminate].
  intros [= <-]. apply last_Some in Hlast as [init ->]. eauto.
Qed.

(** On a table keyed by event, [METADATA] items with the same id are the
    same item. *)
Lemma event_id_inj t (x y : Item) :
  eventKeyed t ->
  x ∈ map_to_list t -> y ∈ map_to_list t ->
  String.eqb (SK x) METADATA = true -> String.eqb (SK y) METADATA = true ->
  Js.replace (PK x) "EVENT#" "" = Js.replace (PK y) "EVENT#" "" ->
  x = y.
Proof.
  intros Hkeyed Hx Hy Hsx Hsy Hid.
  destruct x as [[pkx skx] ix], y as [[pky sky] iy]. unfold PK, SK in *. cbn [fst snd] in *.
  apply String.eqb_eq in Hsx as ->, Hsy as ->.
  apply elem_of_map_to_list in Hx, Hy.
  destruct (Hkeyed _ _ Hx) as (idx & ex & -> & ->).
  destruct (Hkeyed _ _ Hy) as (idy & ey & -> & ->).
  rewrite !replace_EVENT in Hid. subst idy. congruence.
Qed.


Lemma start_sublist (start : option Key) t :
  match start with
  | None => map_to_list t
  | Some k => after k (map_to_list t)
  end `sublist_of` map_to_list t.
Proof.
  destruct start as [k|]; [|done].
  destruct (after_suffix k (map_to_list t)) as [pre Hpre].
  rewrite Hpre at 2. by apply sublist_inserts_l.
Qed.

Lemma elem_of_sublist {A : Type} (l1 l2 : list A) (x : A) :
  l1 `sublist_of` l2 -> x ∈ l1 -> x ∈ l2.
Proof.
  induction 1 as [|y l1 l2 Hsub IH|y l1 l2 Hsub IH]; [done | |].
  - intros [->|Hx]%elem_of_cons; [by left | right; auto].
  - intros Hx. right. auto.
Qed.

(** X12.  No event is listed twice in a page: on a table keyed by event,
    the ids of the events [listEvents] returns are pairwise distinct. *)
Theorem listEvents_page_has_distinct_ids params faults t result t' :
  eventKeyed t ->
  run (listEvents params) faults t = (inr result, t') ->
  NoDup (id <$> events result).
Proof.
  intros Hkeyed Hrun.
  apply listEvents_evaluated in Hrun as (evaluated & rest & buffer & Hstart & Hsub & Hids & _).
  eapply sublist_NoDup; [|apply fmap_sublist, Hsub]. rewrite Hids.
  assert (Hitems : List.filter (fun it => String.eqb (SK it) METADATA) evaluated
                   `sublist_of` map_to_list t).
  { transitivity evaluated; [apply sublist_filter_bool|].
    transitivity (evaluated ++ rest)%list; [by apply sublist_inserts_r|].
    rewrite <- Hstart. apply start_sublist. }
  apply NoDup_fmap_2_strong.
  - intros x y Hx Hy Hid.
    pose proof Hx as Hx'. pose proof Hy as Hy'.
    apply elem_of_filter_bool in Hx' as [_ Hsx], Hy' as [_ Hsy].
    eapply event_id_inj; eauto; eapply elem_of_sublist; eauto.
  - eapply sublist_NoDup; [apply NoDup_map_to_list | exact Hitems].
Qed.

Lemma listEvents_page_has_distinct_ids_witness :
  match run (listEvents (noFilter None)) [] threeEvents with
  | (inr result, _) => NoDup (id <$> events result)
  | (inl _, _) => False
  end.
Proof.
  destruct (listEvents_returns (noFilter None) threeEvents) as [result Hrun].
  - apply threeEvents_typed.
  - vm_compute. discriminate.
  - rewrite Hrun.
    exact (listEvents_page_has_distinct_ids _ _ _ _ _ threeEvents_eventKeyed Hrun).
Defined.

(** X13.  The page that continues from a returned token shares no event
    with the page that returned the token: on a table keyed by event that
    does not change between the two calls, no id of the second page is an
    id of the first. *)
Theorem listEvents_next_page_is_disjoint
    params1 params2 faults1 faults2 t result1 result2 t1 t2 token :
  eventKeyed t ->
  run (listEvents params1) faults1 t = (inr result1, t1) ->
  lastKey result1 = Some token ->
  params_lastKey params2 = Some token ->
  run (listEvents params2) faults2 t = (inr result2, t2) ->
  forall e1 e2 : Event,
    e1 ∈ events result1 -> e2 ∈ events result2 -> id e1 <> id e2.
Proof.
  intros Hkeyed Hrun1 Htoken Hstart2 Hrun2 e1 e2 He1 He2 Hid.
  apply listEvents_evaluated in Hrun1
    as (ev1 & rest1 & buffer1 & Hs1 & Hsub1 & Hids1 & Hlast).
  apply listEvents_evaluated in Hrun2
    as (ev2 & rest2 & buffer2 & Hs2 & Hsub2 & Hids2 & _).
  destruct (Hlast _ Htoken) as (init & x & -> & Hx). rewrite Hstart2 in Hs2.
  (* the table in scan order: what precedes page one, page one, the rest *)
  assert (Hall : exists pre, map_to_list t = ((pre ++ init) ++ x :: rest1)%list).
  { destruct (params_lastKey params1) as [k0|].
    - destruct (after_suffix k0 (map_to_list t)) as [pre Hpre]. exists pre.
      rewrite Hpre, Hs1. by rewrite <- !app_assoc.
    - exists []. rewrite Hs1. by rewrite <- !app_assoc. }
  destruct Hall as [pre Hall].
  assert (Hafter : after token (map_to_list t) = rest1).
  { rewrite Hall, <- Hx. apply after_unique. rewrite <- Hall.
    apply NoDup_fst_map_to_list. }
  rewrite Hafter in Hs2.
  (* the items behind the two events *)
  assert (Hitem : forall (e : Event) (buffer : list Event) (evaluated : list Item)
                         (page : list Event),
             page `sublist_of` buffer ->
             id <$> buffer
             = (fun item => Js.replace (PK item) "EVENT#" "")
                 <$> List.filter (fun it => String.eqb (SK it) METADATA) evaluated ->
             e ∈ page ->
             exists item, item ∈ evaluated /\ String.eqb (SK item) METADATA = true /\
                          id e = Js.replace (PK item) "EVENT#" "").
  { intros e buffer evaluated page Hsub Hids He.
    assert (Hin : id e ∈ id <$> buffer).
    { apply list_elem_of_fmap_2. eapply elem_of_sublist; eauto. }
    rewrite Hids in Hin. apply list_elem_of_fmap in Hin as (item & Heq & Hin).
    apply elem_of_filter_bool in Hin as [Hin Hsk]. eauto. }
  destruct (Hitem e1 _ _ _ Hsub1 Hids1 He1) as (x1 & Hx1 & Hsk1 & Hid1).
  destruct (Hitem e2 _ _ _ Hsub2 Hids2 He2) as (x2 & Hx2 & Hsk2 & Hid2).
  assert (Hin1 : x1 ∈ ((pre ++ init) ++ [x])%list).
  { rewrite <- app_assoc. apply elem_of_app. by right. }
  assert (Hin2 : x2 ∈ rest1) by (rewrite Hs2; apply elem_of_app; by left).
  pose proof (NoDup_map_to_list t) as Hnd.
  rewrite Hall in Hnd. change (x :: rest1) with ([x] ++ rest1)%list in Hnd.
  rewrite app_assoc in Hnd. apply NoDup_app in Hnd as (_ & Hdisjoint & _).
  apply (Hdisjoint x1 Hin1).
  assert (x1 = x2) as ->; [|exact Hin2].
  apply (event_id_inj t); try done.
  - rewrite Hall. change (x :: rest1) with ([x] ++ rest1)%list.
    rewrite app_assoc. apply elem_of_app. by left.
  - rewrite Hall. apply elem_of_app. right. by right.
  - congruence.
Qed.

Lemma listEvents_next_page_is_disjoint_witness :
  match run (listEvents (noFilter (Some 1))) [] threeEvents,
        run (listEvents {| params_category := None; params_search := None;
                           params_status := None; params_limit := Some 1;
                           params_lastKey := Some (EVENT_ "1", METADATA) |})
            [] threeEvents with
  | (inr result1, _), (inr result2, _) =>
      lastKey result1 = Some (EVENT_ "1", METADATA) /\
      forall e1 e2 : Event,
        e1 ∈ events result1 -> e2 ∈ events result2 -> id e1 <> id e2
  | _, _ => False
  end.
Proof.
  assert (Htoken :
            match (run (listEvents (noFilter (Some 1))) [] threeEvents).1 with
            | inr result => lastKey result
            | inl _ => None
            end = Some (EVENT_ "1", METADATA)) by (vm_compute; reflexivity).
  destruct (listEvents_returns (noFilter (Some 1)) threeEvents) as [result1 Hrun1];
    [apply threeEvents_typed | vm_compute; discriminate |].
  destruct (listEvents_returns
              {| params_category := None; params_search := None;
                 params_status := None; params_limit := Some 1;
                 params_lastKey := Some (EVENT_ "1", METADATA) |} threeEvents)
    as [result2 Hrun2]; [apply threeEvents_typed | vm_compute; discriminate |].
  rewrite Hrun1 in Htoken |- *. rewrite Hrun2. cbn [fst] in Htoken.
  split; [exact Htoken|].
  apply (listEvents_next_page_is_disjoint (noFilter (Some 1))
           {| params_category := None; params_search := None;
              params_status := None; params_limit := Some 1;
              params_lastKey := Some (EVENT_ "1", METADATA) |}
           [] [] threeEvents result1 result2 threeEvents threeEvents
           (EVENT_ "1", METADATA)
           threeEvents_eventKeyed Hrun1 Htoken eq_refl Hrun2).
Defined.

(** ** The read handlers *)



(** X15.  [listEventsHandler] rejects a limit that parses to a number
    other than 0 outside 1..100 with 400 [INVALID_REQUEST], before any
    command is sent. *)
Theorem listEventsHandler_rejects_limit event s n :
  query_limit event = Some s -> s <> "" ->
  parseInt10 s = Some n -> n <> 0 -> n < 1 \/ n > 100 ->
  listEventsHandler event
  = Return (readError 400 "INVALID_REQUEST" "Limit must be between 1 and 100").
Proof.
  intros Hs Hne Hparse Hn Hrange. unfold listEventsHandler.
  rewrite Hs. cbn [truthy_string].
  destruct (String.eqb_spec s "") as [->|_]; [done|].
  rewrite Hparse. unfold limit_rejected.
  replace (negb (n =? 0) && ((n <? 1) || (n >? 100))) with true by lia.
  reflexivity.
Qed.

Lemma listEventsHandler_rejects_limit_witness :
  listEventsHandler {| query_category := None; query_search := None;
                       query_status := None; query_limit := Some "-5";
                       query_lastKey := None |}
  = Return (readError 400 "INVALID_REQUEST" "Limit must be between 1 and 100").
Proof.
  apply (listEventsHandler_rejects_limit _ "-5" (-5));
    first [reflexivity | discriminate | lia].
Defined.

(** X16.  A limit of "0", or one that does not start with a number, is
    not rejected: the handler behaves as if no limit had been given, and
    the page size in force is 25. *)
Theorem listEventsHandler_zero_limit_is_default event s faults t :
  query_limit event = Some s ->
  parseInt10 s = None \/ parseInt10 s = Some 0 ->
  run (listEventsHandler event) faults t
  = run (listEventsHandler {| query_category := query_category event;
                              query_search := query_search event;
                              query_status := query_status event;
                              query_limit := None;
                              query_lastKey := query_lastKey event |}) faults t /\
  listEvents_limit {| params_category := query_category event;
                      params_search := query_search event;
                      params_status := query_status event;
                      params_limit := parseInt10 s;
                      params_lastKey := query_lastKey event |} = 25.
Proof.
  intros Hs Hparse. split.
  - unfold listEventsHandler. rewrite Hs. cbn [truthy_string query_limit
      query_category query_search query_status query_lastKey].
    destruct (String.eqb_spec s "") as [->|_]; [reflexivity|].
    destruct Hparse as [-> | ->]; reflexivity.
  - unfold listEvents_limit. cbn [params_limit]. by destruct Hparse as [-> | ->].
Qed.

Lemma listEventsHandler_zero_limit_is_default_witness :
  run (listEventsHandler {| query_category := None; query_search := None;
                            query_status := None; query_limit := Some "abc";
                            query_lastKey := None |}) [] threeEvents
  = run (listEventsHandler {| query_category := None; query_search := None;
                              query_status := None; query_limit := None;
                              query_lastKey := None |}) [] threeEvents /\
  listEvents_limit {| params_category := None; params_search := None;
                      params_status := None; params_limit := parseInt10 "abc";
                      params_lastKey := None |} = 25.
Proof.
  apply (listEventsHandler_zero_limit_is_default
           {| query_category := None; query_search := None;
              query_status := None; query_limit := Some "abc";
              query_lastKey := None |} "abc" [] threeEvents).
  - reflexivity.
  - left. reflexivity.
Defined.

(** X17.  The read handlers never throw: whatever the table holds and
    whether or not the command is rejected, [listEventsHandler] returns
    200 with a page, 400 [INVALID_REQUEST] or 500 [INTERNAL_ERROR], and
    [getEventHandler] returns 200 with an event, 400 [INVALID_REQUEST],
    404 [EVENT_NOT_FOUND] or 500 [INTERNAL_ERROR]. *)
Theorem read_handlers_always_respond faults t :
  (forall event, exists r, (run (listEventsHandler event) faults t).1 = inr r /\
                           listResponse r) /\
  (forall pathId, exists r, (run (getEventHandler pathId) faults t).1 = inr r /\
                            eventResponse r).
Proof.
  split.
  - intros event.
    assert (H : Ends listResponse (fun _ => False) (listEventsHandler event)).
    { unfold listEventsHandler.
      apply Ends_try_catch with (T1 := fun _ => True);
        [|intros e _; cbn [Ends]; right; by right].
      destruct (limit_rejected _); [cbn [Ends]; right; by left|].
      eapply Ends_bind; [apply Ends_any|]. intros result _. cbn [Ends]. left. by eexists. }
    apply (run_Ends _ _ _ faults t) in H.
    destruct (run _ faults t).1 as [e|r]; [done | by exists r].
  - intros pathId.
    assert (H : Ends eventResponse (fun _ => False) (getEventHandler pathId)).
    { unfold getEventHandler.
      apply Ends_try_catch with (T1 := fun _ => True);
        [|intros e _; cbn [Ends]; do 3 right; reflexivity].
      destruct (truthy_string pathId); [|cbn [Ends]; right; by left].
      eapply Ends_bind; [apply Ends_any|]. intros [event|] _; cbn [Ends].
      - left. by eexists.
      - right. right. by left. }
    apply (run_Ends _ _ _ faults t) in H.
    destruct (run _ faults t).1 as [e|r]; [done | by exists r].
Qed.





(** ** The seed script *)

Lemma run_bind_Return {A B : Type} (p : Prog A) (g : A -> B) faults t :
  run (bind p (fun a => Return (g a))) faults t
  = (match (run p faults t).1 with
     | inr a => inr (g a)
     | inl e => inl e
     end, (run p faults t).2).
Proof.
  revert faults t. induction p as [a|e|c k IH]; intros faults t; cbn [bind run];
    [reflexivity | reflexivity |].
  destruct faults as [|[e|] faults]; [destruct (perform c t) | | destruct (perform c t)];
    apply IH.
Qed.

Lemma run_seedLoop events success errors faults t :
  (run (seedLoop events success errors) faults t).1
  = inr (success + Z.of_nat (length events) - rejectedOf (length events) faults,
         errors + rejectedOf (length events) faults).
Proof.
  revert success errors faults t.
  induction events as [|event events IH]; intros success errors faults t.
  - unfold rejectedOf. rewrite take_0. cbn. do 2 f_equal; lia.
  - cbn [seedLoop send bind try_catch run length].
    destruct faults as [|[e|] faults]; cbn [perform bind try_catch].
    + rewrite IH. unfold rejectedOf. rewrite !take_nil. cbn. do 2 f_equal; lia.
    + rewrite IH. unfold rejectedOf. cbn [take List.filter].
      rewrite bool_decide_eq_true_2 by by eexists. cbn [length]. do 2 f_equal; lia.
    + rewrite IH. unfold rejectedOf. cbn [take List.filter].
      rewrite bool_decide_eq_false_2 by (by intros [? ?]). do 2 f_equal; lia.
Qed.

(** X19.  The seed script goes through the whole list whatever happens:
    it never throws, every event is counted once, as stored or as failed,
    the failures are exactly the rejected puts, and the exit code is 0
    only when there was none. *)
Theorem seedEvents_counts events faults t :
  exists report,
    (run (seedEvents events) faults t).1 = inr report /\
    successCount report + errorCount report = Z.of_nat (length events) /\
    errorCount report = rejectedOf (length events) faults /\
    0 <= errorCount report <= Z.of_nat (length events) /\
    exitCode report = (if errorCount report =? 0 then 0 else 1).
Proof.
  unfold seedEvents. rewrite run_bind_Return, run_seedLoop. cbn [fst snd].
  eexists. split; [reflexivity|]. cbn [successCount errorCount exitCode].
  assert (Hle : 0 <= rejectedOf (length events) faults <= Z.of_nat (length events)).
  { unfold rejectedOf. split; [lia|].
    pose proof (filter_length_le (fun f : option JsError => bool_decide (is_Some f))
                  (take (length events) faults)) as H1.
    rewrite length_take in H1. lia. }
  repeat split; try lia.
  destruct (_ >? 0) eqn:H1; destruct (_ =? 0) eqn:H2; lia.
Qed.

Lemma run_seedLoop_table_Forall (P : Key -> Attributes -> Prop)
    events success errors faults t :
  map_Forall P t ->
  (forall event : Event, event ∈ events ->
     P (EVENT_ (id event), METADATA) (EventRecord event)) ->
  map_Forall P (run (seedLoop events success errors) faults t).2.
Proof.
  revert success errors faults t.
  induction events as [|event events IH]; intros success errors faults t Ht Hev;
    [exact Ht|].
  assert (Hrest : forall ev : Event, ev ∈ events ->
                    P (EVENT_ (id ev), METADATA) (EventRecord ev))
    by (intros; apply Hev; by right).
  assert (Hput : map_Forall P (<[(EVENT_ (id event), METADATA) := EventRecord event]> t)).
  { apply map_Forall_insert_2; [apply Hev; by left | exact Ht]. }
  cbn [seedLoop send bind try_catch run].
  destruct faults as [|[e|] faults]; cbn [perform bind try_catch]; by apply IH.
Qed.

Lemma eventKeyed_Forall t :
  map_Forall (fun key item =>
                exists eventId e, key = (EVENT_ eventId, METADATA) /\
                                  item = EventRecord e) t ->
  eventKeyed t.
Proof.
  intros H pk item Hlook. destruct (H _ _ Hlook) as (eventId & e & [= ->] & ->).
  by eexists _, _.
Qed.

(** X20.  Seeding the empty table with events whose [registered] lies
    between 0 and [max] leaves, whichever puts are rejected, a table that
    holds event records only, each under the key of its id, with
    [registered <= max]: the tables the properties of the registration
    engine start from. *)
Theorem seedEvents_table (events : list Event) faults :
  (forall event : Event, event ∈ events ->
     0 <= registered (capacity event) <= max (capacity event)) ->
  seeded (run (seedEvents events) faults ∅).2 /\
  capacity_ok (run (seedEvents events) faults ∅).2 /\
  eventKeyed (run (seedEvents events) faults ∅).2.
Proof.
  intros Hev. unfold seedEvents. rewrite run_bind_Return. cbn [snd].
  split; [|split].
  - apply run_seedLoop_table_Forall; [apply map_Forall_empty|].
    intros event Hin. cbn. apply Z.leb_le. by apply Hev.
  - apply run_seedLoop_table_Forall; [apply map_Forall_empty|].
    intros event Hin. cbn. apply Z.leb_le. by apply Hev.
  - apply eventKeyed_Forall.
    apply run_seedLoop_table_Forall; [apply map_Forall_empty|].
    intros event Hin. by eexists _, _.
Qed.

Lemma seedEvents_table_witness :
  seeded (run (seedEvents [ {| id := "1"; attributes := sampleEvent "technology" 30 15 |};
                            {| id := "2"; attributes := sampleEvent "design" 5 5 |} ])
              [None; Some (Error "throttled")] ∅).2 /\
  capacity_ok
    (run (seedEvents [ {| id := "1"; attributes := sampleEvent "technology" 30 15 |};
                       {| id := "2"; attributes := sampleEvent "design" 5 5 |} ])
         [None; Some (Error "throttled")] ∅).2 /\
  eventKeyed
    (run (seedEvents [ {| id := "1"; attributes := sampleEvent "technology" 30 15 |};
                       {| id := "2"; attributes := sampleEvent "design" 5 5 |} ])
         [None; Some (Error "throttled")] ∅).2.
Proof.
  apply (seedEvents_table
           [ {| id := "1"; attributes := sampleEvent "technology" 30 15 |};
             {| id := "2"; attributes := sampleEvent "design" 5 5 |} ]).
  intros event Hin.
  apply elem_of_cons in Hin as [->|Hin]; [cbn; lia|].
  apply list_elem_of_singleton in Hin as ->. cbn. lia.
Defined.

(** ** Concurrent requests, continued *)

Lemma grown_refl t : grown t t.
Proof.
  intros pk e0 H. exists (registered (capacity e0)). split; [lia|].
  rewrite H. by destruct e0 as [? ? ? ? [? ?] ? ?].
Qed.

Lemma perform_grown t0 c t :
  raising c -> grown t0 t -> grown t0 (perform c t).2.
Proof.
  intros Hc Hgr. destruct c as [input|key|key item|input|input];
    cbn [perform snd]; try done.
  - (* PutItemCommand *)
    intros pk e0 H0. destruct (Hgr pk e0 H0) as (n & Hn & Hlook). exists n.
    split; [exact Hn|]. rewrite lookup_insert_ne; [exact Hlook|].
    intros ->. by apply Hc.
  - (* UpdateItemCommand *)
    unfold update. cbn [raising] in Hc.
    destruct (t !! update_Key input) as [[e|r]|] eqn:Hlook; [|done|done].
    destruct (Z.eqb_spec (registered (capacity e)) (currentRegistered input))
      as [Heq|Hne]; [|done].
    cbn [snd]. intros pk e0 H0. destruct (Hgr pk e0 H0) as (n & Hn & Hpk).
    destruct (decide (update_Key input = (pk, METADATA))) as [Hkey|Hkey].
    + rewrite Hkey in Hlook |- *. rewrite Hlook in Hpk. injection Hpk as ->.
      exists (newRegistered input). rewrite lookup_insert_eq.
      cbn [setRegistered capacity registered] in Heq. split; [lia | reflexivity].
    + exists n. by rewrite lookup_insert_ne.
Qed.

Lemma registerEventHandler_raising g event :
  AllSent raising (registerEventHandler g event).
Proof.
  destruct (registerEventHandler_cases g event)
    as [(r & -> & _)|(eventId & email & name & n & Hwf)]; [exact I|].
  rewrite (registerEventHandler_wellFormed _ _ _ _ _ _ Hwf).
  apply afterValidation_AllSent; cbn [raising newRegistered currentRegistered snd];
    [exact I | exact I | |].
  - destruct Hwf as (_ & _ & _ & _ & _ & _ & Hn). intros current. lia.
  - intros _. discriminate.
Qed.

Lemma exec_grown t0 a sys sys' :
  grown t0 (table sys) -> Forall (AllSent raising) (requests sys) ->
  exec a sys = Some sys' ->
  grown t0 (table sys') /\ Forall (AllSent raising) (requests sys').
Proof.
  intros Hgr Hall Hexec. destruct a as [g event|i|i e]; cbn [exec] in Hexec.
  - injection Hexec as <-. cbn [table requests]. split; [exact Hgr|].
    apply Forall_app. split; [exact Hall|].
    apply Forall_singleton, registerEventHandler_raising.
  - destruct (requests sys !! i) as [[r|e|c k]|] eqn:Hi; try discriminate.
    pose proof (Forall_lookup_1 _ _ _ _ Hall Hi) as [Hc Hk].
    pose proof (perform_grown t0 c (table sys) Hc Hgr) as Hgr'.
    destruct (perform c (table sys)) as [out t'].
    injection Hexec as <-. cbn [table requests snd] in *.
    split; [exact Hgr'|]. apply Forall_insert; [exact Hall | apply Hk].
  - destruct (requests sys !! i) as [[r|e'|c k]|] eqn:Hi; try discriminate.
    pose proof (Forall_lookup_1 _ _ _ _ Hall Hi) as [Hc Hk].
    injection Hexec as <-. cbn [table requests].
    split; [exact Hgr|]. apply Forall_insert; [exact Hall | apply Hk].
Qed.

Lemma execs_grown t0 acts sys sys' :
  grown t0 (table sys) -> Forall (AllSent raising) (requests sys) ->
  execs acts sys = Some sys' ->
  grown t0 (table sys').
Proof.
  revert sys. induction acts as [|a acts IH]; intros sys Hgr Hall Hexecs;
    cbn [execs] in Hexecs.
  - by injection Hexecs as <-.
  - destruct (exec a sys) as [sys1|] eqn:Hexec; [|discriminate].
    destruct (exec_grown _ _ _ _ Hgr Hall Hexec) as [Hgr1 Hall1].
    by eapply IH.
Qed.

(** X21.  Registration traffic never removes an event, never changes any
    of its attributes but [capacity.registered], and never lowers
    [registered]: in every state reached by any interleaving of the
    commands of any number of register requests, performed or rejected, an
    event of the initial table is still there, the same but for a
    [registered] that is at least what it was. *)
Theorem events_kept_and_registered_never_decreases t0 sys pk e0 :
  reachable t0 sys ->
  t0 !! (pk, METADATA) = Some (EventRecord e0) ->
  exists n, registered (capacity e0) <= n /\
            table sys !! (pk, METADATA) = Some (EventRecord (setRegistered n e0)).
Proof.
  intros [acts Hexecs] H0.
  exact (execs_grown t0 acts (initial t0) sys (grown_refl t0) (Forall_nil_2 _) Hexecs
           pk e0 H0).
Qed.

Lemma events_kept_and_registered_never_decreases_witness :
  exists n, 4 <= n /\
    table (after_actions lastPlaceRace (oneEvent "1" 5 4)) !! (EVENT_ "1", METADATA)
    = Some (EventRecord (setRegistered n (sampleEvent "technology" 5 4))).
Proof.
  apply (events_kept_and_registered_never_decreases (oneEvent "1" 5 4)
           (after_actions lastPlaceRace (oneEvent "1" 5 4)) (EVENT_ "1")
           (sampleEvent "technology" 5 4)).
  - exists lastPlaceRace. vm_compute. reflexivity.
  - reflexivity.
Defined.
